(** * go-mysql-server: the expression walker and the DELETE-to-TRUNCATE pass

    A shallow embedding of [sql/walk.go] (Walk) and of
    [sql/analyzer/process_truncate.go] (processTruncate, deleteToTruncate,
    validateTruncate), followed by the properties established about them.

    Conventions of the embedding:
    - Go strings are [string]s (sequences of bytes); [strings.ToLower] is
      a parameter of the development ([Lowering]).
    - A Go result pair [(x, error)] is a [result]; the pair [(bool, error)]
      of validateTruncate, whose two halves are independent, stays a pair.
    - Loops with an early [return] are recursive functions into [Flow]:
      either the loop goes on ([Next]) or the enclosing function has
      returned ([Return]).
    - Every call to a collaborator (catalog, database, table, trigger
      source) is recorded, with its outcome, in a log that the functions
      return next to their result. *)

From Stdlib Require Import String Ascii List Bool Arith Lia.
Import ListNotations.
Open Scope string_scope.
Open Scope list_scope.

Set Implicit Arguments.
Set Warnings "-register-all".

(* ================================================================== *)
(** * Strings *)

(** [strings.ToLower] is a function of Go's library: it lower-cases every
    Unicode letter.  The development takes it as a parameter, so that what
    is proved holds of whatever function it is. *)
Class Lowering : Type := { ToLower : string -> string }.

(** [strings.ToLower] on strings of ASCII characters: [A-Z] is shifted to
    [a-z], every other character is left as it is.  It is used to run
    the pass on catalogs whose names are ASCII. *)
Definition lower_ascii (c : ascii) : ascii :=
  let n := nat_of_ascii c in
  if ((65 <=? n)%nat && (n <=? 90)%nat)%bool then ascii_of_nat (n + 32) else c.

Fixpoint asciiToLower (s : string) : string :=
  match s with
  | EmptyString => EmptyString
  | String c rest => String (lower_ascii c) (asciiToLower rest)
  end.

Definition asciiLowering : Lowering := {| ToLower := asciiToLower |}.

(** [sqlparser.InsertStr], [sqlparser.UpdateStr], [sqlparser.DeleteStr]. *)
Definition InsertStr : string := "insert".
Definition UpdateStr : string := "update".
Definition DeleteStr : string := "delete".

(* ================================================================== *)
(** * sql/walk.go *)

(** [sql.Expression], as far as Walk looks at it: a node and its
    [Children()]. *)
Inductive Expression : Type :=
| Expr (label : string) (children : list Expression).

Definition Children (e : Expression) : list Expression :=
  match e with Expr _ cs => cs end.

Section Walker.

(** The state that visitors read and write (in Go: whatever the visitor
    values point to). *)
Variable St : Type.

(** [sql.Visitor].  The values implementing the interface are the
    elements of [V]; their one method is [Visit].  Its argument is [None]
    for Go's [nil] expression, its result is [None] for a [nil] visitor.
    A visitor may hand back itself, another visitor, or none. *)
Variable V : Type.
Variable Visit : V -> option Expression -> St -> St * option V.

(** One call [v.Visit(arg)] made by Walk. *)
Definition VisitCall : Type := (V * option Expression)%type.

(** [Walk(v, expr)]: the state after the walk and the calls of Visit it
    made, in order. *)
Fixpoint Walk (v : V) (expr : Expression) (s : St) : St * list VisitCall :=
  match expr with
  | Expr _ children =>
      match Visit v (Some expr) s with
      | (s1, None) => (s1, [(v, Some expr)])
      | (s1, Some w) =>
          let '(s2, calls) :=
            (fix range (cs : list Expression) (s : St) : St * list VisitCall :=
               match cs with
               | [] => (s, [])
               | child :: rest =>
                   let '(sa, ca) := Walk w child s in
                   let '(sb, cb) := range rest sa in
                   (sb, ca ++ cb)
               end) children s1 in
          (fst (Visit w None s2), (v, Some expr) :: calls ++ [(w, None)])
      end
  end.

(** The loop [for _, child := range expr.Children() { Walk(v, child) }]
    on its own. *)
Fixpoint WalkChildren (w : V) (cs : list Expression) (s : St) : St * list VisitCall :=
  match cs with
  | [] => (s, [])
  | child :: rest =>
      let '(sa, ca) := Walk w child s in
      let '(sb, cb) := WalkChildren w rest sa in
      (sb, ca ++ cb)
  end.

End Walker.

(** [type inspector func(Expression) bool] and its [Visit]: the function is
    handed back as the visitor when it answers [true]. *)
Definition inspector (St : Type) : Type := option Expression -> St -> St * bool.

Definition inspector_Visit {St} (f : inspector St) (expr : option Expression)
    (s : St) : St * option (inspector St) :=
  let '(s', b) := f expr s in
  if b then (s', Some f) else (s', None).

(** [Inspect(expr, f)]. *)
Definition Inspect {St} (expr : Expression) (f : inspector St) (s : St)
    : St * list (VisitCall (inspector St)) :=
  Walk inspector_Visit f expr s.

(* ================================================================== *)
(** * sql/analyzer/process_truncate.go: data *)

(** The errors the pass can hand back.  [ErrMetadata] stands for whatever
    a catalog, database, table or trigger lookup fails with. *)
Inductive Error : Type :=
| ErrTableNotFound (name : string)
| ErrTruncateReferencedFromForeignKey (table fk referencing : string)
| ErrTruncateNotSupported
| ErrMetadata (msg : string).

Inductive result (A : Type) : Type :=
| Ok (a : A)
| Err (e : Error).
Arguments Ok {A} a.
Arguments Err {A} e.

Definition err_of {A} (r : result A) : option Error :=
  match r with Ok _ => None | Err e => Some e end.

(** [sql.Column]: the pass reads [AutoIncrement] only. *)
Record Column : Type := { Column_Name : string; AutoIncrement : bool }.

(** [sql.ForeignKeyConstraint]: the pass reads [Name], [ReferencedTable]. *)
Record ForeignKeyConstraint : Type :=
  { fk_Name : string; ReferencedTable : string }.

(** [sql.Table].  [GetForeignKeys] is [Some] exactly when the table
    implements [sql.ForeignKeyTable]; [Truncateable] says whether it
    implements [sql.TruncateableTable]. *)
Record Table : Type :=
  { Table_Name : string;
    Schema : list Column;
    GetForeignKeys : option (result (list ForeignKeyConstraint));
    Truncateable : bool }.

(** [sql.Node], the variants the pass tells apart. *)
Inductive Node : Type :=
| ResolvedTable (t : Table)
| UnresolvedTable (name : string) (Database : string)
| DeleteFrom (Child : Node)
| Truncate (db : string) (Child : Node)
| OtherNode (kind : string) (children : list Node).

(** [plan.CreateTrigger]: the event and the table the trigger is on. *)
Record CreateTrigger : Type :=
  { TriggerEvent : string; Trigger_Table : Node }.

(** [sql.Database], with the trigger source [loadTriggersFromDb(ctx, db)]
    as one more field. *)
Record Database : Type :=
  { Database_Name : string;
    GetTableNames : result (list string);
    GetTableInsensitive : string -> result (option Table);
    loadTriggersFromDb : result (list CreateTrigger) }.

Record Catalog : Type := { AllDatabases : list Database }.
Record Analyzer : Type := { Analyzer_Catalog : Catalog }.
Record Context : Type := { GetCurrentDatabase : string }.

(** Modelled from the spec: [plan.GetTruncatable] is not among the sources.
    It resolves a truncatable representation of the reference and fails
    when the reference is not a kind of node that supports truncation: here
    a resolved table whose table implements truncation is truncatable, and
    nothing else is. *)
Definition GetTruncatable (tbl : Node) : result Table :=
  match tbl with
  | ResolvedTable t => if Truncateable t then Ok t else Err ErrTruncateNotSupported
  | _ => Err ErrTruncateNotSupported
  end.

(* ================================================================== *)
(** * The log of collaborator calls, and early return *)

Inductive Lookup : Type :=
| CallAllDatabases
| CallGetTableNames (db : string)
| CallLoadTriggers (db : string)
| CallGetTableInsensitive (db name : string)
| CallGetForeignKeys (db name : string).

Record Event : Type := { ev_lookup : Lookup; ev_err : option Error }.

Inductive Flow (R A : Type) : Type :=
| Next (a : A)
| Return (r : R).
Arguments Next {R A} a.
Arguments Return {R A} r.

Definition M (R A : Type) : Type := (list Event * Flow R A)%type.

Definition ret {R A} (a : A) : M R A := ([], Next a).
Definition exit {R A} (r : R) : M R A := ([], Return r).
Definition lift {R A} (f : Flow R A) : M R A := ([], f).

Definition bind {R A B} (m : M R A) (f : A -> M R B) : M R B :=
  match m with
  | (l, Return r) => (l, Return r)
  | (l, Next a) => let '(l', x) := f a in (l ++ l', x)
  end.

(** A collaborator call: its outcome is logged and handed to the caller. *)
Definition call {R A} (k : Lookup) (r : result A) : M R (result A) :=
  ([{| ev_lookup := k; ev_err := err_of r |}], Next r).

(** A call of another function of the pass, whose log is appended. *)
Definition invoke {R A} (m : list Event * A) : M R A :=
  (fst m, Next (snd m)).

(** Falling off the end of the function body with value [r]. *)
Definition run {R} (m : M R R) : list Event * R :=
  match m with
  | (l, Next r) => (l, r)
  | (l, Return r) => (l, r)
  end.

Arguments bind : simpl never.
Arguments call : simpl never.
Arguments invoke : simpl never.

Definition allDatabases {R} (a : Analyzer) : M R (list Database) :=
  ([{| ev_lookup := CallAllDatabases; ev_err := None |}],
   Next (AllDatabases (Analyzer_Catalog a))).
Arguments allDatabases : simpl never.

Declare Scope pass_scope.
Delimit Scope pass_scope with pass.
Notation "x <- m ;; k" := (bind m (fun x => k))
  (at level 61, m at next level, right associativity) : pass_scope.
Notation "' p <- m ;; k" := (bind m (fun x => match x with p => k end))
  (at level 61, p pattern, m at next level, right associativity) : pass_scope.
Open Scope pass_scope.

(* ================================================================== *)
(** * validateTruncate *)

Section Pass.

Context {L : Lowering}.

Definition Verdict : Type := (bool * option Error)%type.

(** [for _, fk := range fks] (lines 146-150). *)
Fixpoint rangeForeignKeys (tableName tableNameToCheck : string)
    (fks : list ForeignKeyConstraint) : Flow Verdict unit :=
  match fks with
  | [] => Next tt
  | fk :: rest =>
      if ToLower (ReferencedTable fk) =? tableName
      then Return (false, Some (ErrTruncateReferencedFromForeignKey
                                  tableName (fk_Name fk) tableNameToCheck))
      else rangeForeignKeys tableName tableNameToCheck rest
  end.

(** [for _, tableNameToCheck := range tableNames] (lines 129-152). *)
Fixpoint rangeTableNames (db : Database) (tableName : string)
    (tableNames : list string) : M Verdict unit :=
  match tableNames with
  | [] => ret tt
  | tableNameToCheck :: rest =>
      if ToLower tableNameToCheck =? tableName
      then rangeTableNames db tableName rest
      else
        r <- call (CallGetTableInsensitive (Database_Name db) tableNameToCheck)
                  (GetTableInsensitive db tableNameToCheck) ;;
        match r with
        | Err err => exit (true, Some err)
        | Ok None => exit (true, Some (ErrTableNotFound tableNameToCheck))
        | Ok (Some tableToCheck) =>
            match GetForeignKeys tableToCheck with
            | Some getForeignKeys =>
                r <- call (CallGetForeignKeys (Database_Name db) tableNameToCheck)
                          getForeignKeys ;;
                match r with
                | Err err => exit (true, Some err)
                | Ok fks =>
                    _ <- lift (rangeForeignKeys tableName tableNameToCheck fks) ;;
                    rangeTableNames db tableName rest
                end
            | None => rangeTableNames db tableName rest
            end
        end
  end.

(** [for _, db := range a.Catalog.AllDatabases()] (lines 119-153). *)
Fixpoint rangeDatabases (dbName tableName : string) (dbs : list Database)
    : M Verdict unit :=
  match dbs with
  | [] => ret tt
  | db :: rest =>
      if negb (ToLower (Database_Name db) =? dbName)
      then rangeDatabases dbName tableName rest
      else
        r <- call (CallGetTableNames (Database_Name db)) (GetTableNames db) ;;
        match r with
        | Err err => exit (true, Some err)
        | Ok tableNames =>
            _ <- rangeTableNames db tableName tableNames ;;
            rangeDatabases dbName tableName rest
        end
  end.

Definition validateTruncate (ctx : Context) (a : Analyzer) (dbName : string)
    (tbl : Node) : list Event * Verdict :=
  match GetTruncatable tbl with
  | Err err => ([], (false, Some err))
  | Ok truncatable =>
      let tableName := ToLower (Table_Name truncatable) in
      let dbName := if dbName =? ""
                    then ToLower (GetCurrentDatabase ctx)
                    else ToLower dbName in
      run (dbs <- allDatabases a ;;
           _ <- rangeDatabases dbName tableName dbs ;;
           ret (true, None))
  end.

(* ================================================================== *)
(** * deleteToTruncate *)

(** [for _, dbTblName := range dbTblNames] (lines 53-62); the loop state is
    [(tblFound, dbName)]. *)
Fixpoint rangeDbTblNames (deletePlan : Node) (tblName : string) (db : Database)
    (dbTblNames : list string) (st : bool * string)
    : Flow (result Node) (bool * string) :=
  match dbTblNames with
  | [] => Next st
  | dbTblName :: rest =>
      if ToLower dbTblName =? tblName
      then
        if negb (fst st)
        then rangeDbTblNames deletePlan tblName db rest (true, Database_Name db)
        else Return (Ok deletePlan)
      else rangeDbTblNames deletePlan tblName db rest st
  end.

(** [for _, db := range a.Catalog.AllDatabases()] (lines 48-63). *)
Fixpoint rangeFindTable (deletePlan : Node) (tblName : string)
    (dbs : list Database) (st : bool * string)
    : M (result Node) (bool * string) :=
  match dbs with
  | [] => ret st
  | db :: rest =>
      r <- call (CallGetTableNames (Database_Name db)) (GetTableNames db) ;;
      match r with
      | Err err => exit (Err err)
      | Ok dbTblNames =>
          st' <- lift (rangeDbTblNames deletePlan tblName db dbTblNames st) ;;
          rangeFindTable deletePlan tblName rest st'
      end
  end.

(** The test of lines 83-85. *)
Definition triggerIsOn (tblName dbName dbNameLower : string) (db : Database)
    (name database : string) : bool :=
  (ToLower name =? tblName) &&
  (((database =? "") && (Database_Name db =? dbName)) ||
   (ToLower database =? dbNameLower)).

(** [for _, trigger := range triggers] (lines 74-89). *)
Fixpoint rangeTriggers (deletePlan : Node) (tblName dbName dbNameLower : string)
    (db : Database) (triggers : list CreateTrigger) : Flow (result Node) unit :=
  match triggers with
  | [] => Next tt
  | trigger :: rest =>
      if negb (TriggerEvent trigger =? DeleteStr)
      then rangeTriggers deletePlan tblName dbName dbNameLower db rest
      else
        match Trigger_Table trigger with
        | UnresolvedTable name database =>
            if triggerIsOn tblName dbName dbNameLower db name database
            then Return (Ok deletePlan)
            else rangeTriggers deletePlan tblName dbName dbNameLower db rest
        | _ => Return (Ok deletePlan)
        end
  end.

(** [for _, db := range a.Catalog.AllDatabases()] (lines 69-90). *)
Fixpoint rangeDbTriggers (deletePlan : Node) (tblName dbName dbNameLower : string)
    (dbs : list Database) : M (result Node) unit :=
  match dbs with
  | [] => ret tt
  | db :: rest =>
      r <- call (CallLoadTriggers (Database_Name db)) (loadTriggersFromDb db) ;;
      match r with
      | Err err => exit (Err err)
      | Ok triggers =>
          _ <- lift (rangeTriggers deletePlan tblName dbName dbNameLower db triggers) ;;
          rangeDbTriggers deletePlan tblName dbName dbNameLower rest
      end
  end.

(** [deleteToTruncate(ctx, a, deletePlan)], with [deletePlan] given by its
    [Child]. *)
Definition deleteToTruncate (ctx : Context) (a : Analyzer) (Child : Node)
    : list Event * result Node :=
  let deletePlan := DeleteFrom Child in
  match Child with
  | ResolvedTable t =>
      let tbl := ResolvedTable t in
      let tblName := ToLower (Table_Name t) in
      if existsb AutoIncrement (Schema t)
      then ([], Ok deletePlan)
      else
        run (dbs <- allDatabases a ;;
             '(tblFound, dbName) <- rangeFindTable deletePlan tblName dbs (false, "") ;;
             if negb tblFound
             then exit (Ok deletePlan)
             else
               let dbNameLower := ToLower dbName in
               dbs <- allDatabases a ;;
               _ <- rangeDbTriggers deletePlan tblName dbName dbNameLower dbs ;;
               '(ok, err) <- invoke (validateTruncate ctx a dbNameLower tbl) ;;
               if ok
               then
                 match err with
                 | Some err => exit (Err err)
                 | None => exit (Ok (Truncate dbName tbl))
                 end
               else ret (Ok deletePlan))
  | _ => ([], Ok deletePlan)
  end.

(* ================================================================== *)
(** * processTruncate *)

Definition processTruncate (ctx : Context) (a : Analyzer) (n : Node)
    : list Event * result Node :=
  match n with
  | DeleteFrom Child => deleteToTruncate ctx a Child
  | Truncate db Child =>
      let '(l, (_, err)) := validateTruncate ctx a db Child in
      match err with
      | Some err => (l, Err err)
      | None => (l, Ok (Truncate db Child))
      end
  | _ => ([], Ok n)
  end.

End Pass.

(* ================================================================== *)
(** * Catalogs to run the pass on *)

(** A table with the given name, one column, and the given foreign keys. *)
Definition plainTable (name : string) (autoInc : bool)
    (fks : list ForeignKeyConstraint) : Table :=
  {| Table_Name := name;
     Schema := [{| Column_Name := "id"; AutoIncrement := autoInc |}];
     GetForeignKeys := Some (Ok fks);
     Truncateable := true |}.

(** An in-memory database: it lists its tables' names and fetches a table
    by its name, compared without regard to case. *)
Definition memDatabase (name : string) (tables : list Table)
    (triggers : list CreateTrigger) : Database :=
  {| Database_Name := name;
     GetTableNames := Ok (map Table_Name tables);
     GetTableInsensitive := fun n =>
       Ok (find (fun t => asciiToLower (Table_Name t) =? asciiToLower n) tables);
     loadTriggersFromDb := Ok triggers |}.

(** A database whose every lookup fails. *)
Definition brokenDatabase (name : string) : Database :=
  {| Database_Name := name;
     GetTableNames := Err (ErrMetadata "io");
     GetTableInsensitive := fun _ => Err (ErrMetadata "io");
     loadTriggersFromDb := Err (ErrMetadata "io") |}.

Definition analyzerOf (dbs : list Database) : Analyzer :=
  {| Analyzer_Catalog := {| AllDatabases := dbs |} |}.

Definition inDatabase (name : string) : Context :=
  {| GetCurrentDatabase := name |}.

(** The scenario of the specification: database [sales] with [orders] and
    with [order_items], which holds [fk1] referencing [orders]. *)
Definition orders : Table := plainTable "orders" false [].
Definition order_items : Table :=
  plainTable "order_items" false
    [{| fk_Name := "fk1"; ReferencedTable := "orders" |}].
Definition sales : Database := memDatabase "sales" [orders; order_items] [].

(** A table that does not support truncation. *)
Definition viewLike : Table :=
  {| Table_Name := "v";
     Schema := [{| Column_Name := "id"; AutoIncrement := false |}];
     GetForeignKeys := None;
     Truncateable := false |}.

(** A table with an auto-increment column. *)
Definition invoices : Table := plainTable "invoices" true [].

(** A second database that lists [orders], under another spelling. *)
Definition archive : Database :=
  memDatabase "archive" [plainTable "Orders" false []] [].

Definition onOrders (event : string) : CreateTrigger :=
  {| TriggerEvent := event; Trigger_Table := UnresolvedTable "Orders" "" |}.

(** [sales] without the foreign key of [order_items], with the given
    triggers. *)
Definition shop (triggers : list CreateTrigger) : Database :=
  memDatabase "shop" [orders; plainTable "order_items" false []] triggers.

(** A table that references itself, and a database that lists a table it
    cannot fetch. *)
Definition employees : Table :=
  plainTable "employees" false
    [{| fk_Name := "fk_manager"; ReferencedTable := "Employees" |}].
Definition hr : Database := memDatabase "hr" [employees; plainTable "badges" false []] [].
Definition hrWithGhost : Database :=
  {| Database_Name := "hr";
     GetTableNames := Ok ["employees"; "ghost"];
     GetTableInsensitive := fun n =>
       if asciiToLower n =? "employees" then Ok (Some employees) else Ok None;
     loadTriggersFromDb := Ok [] |}.

(** A delete trigger whose target is not an unresolved-table reference. *)
Definition onResolvedItems : CreateTrigger :=
  {| TriggerEvent := DeleteStr;
     Trigger_Table := ResolvedTable (plainTable "order_items" false []) |}.

(** A table like [orders] that does not support truncation. *)
Definition ordersView : Table :=
  {| Table_Name := "orders";
     Schema := [{| Column_Name := "id"; AutoIncrement := false |}];
     GetForeignKeys := Some (Ok []);
     Truncateable := false |}.


(** A visitor for runs of Walk: the state counts the calls made so far, the
    function declines to descend into the expressions labelled ["leaf"] and
    ["skip"]. *)
Definition countingInspector : inspector nat :=
  fun expr n =>
    match expr with
    | Some (Expr label _) =>
        (S n, negb ((label =? "leaf") || (label =? "skip"))%bool)
    | None => (S n, true)
    end.

Definition leafA : Expression := Expr "leaf" [].
Definition skipped : Expression := Expr "skip" [Expr "below" []].
Definition leafB : Expression := Expr "b" [].
Definition rootExpr : Expression := Expr "root" [leafA; skipped; leafB].

(* ================================================================== *)
(** * Vocabulary for the properties of the pass *)

Section PassVocabulary.

Context {L : Lowering}.

(** The result and the log of a run. *)
Definition outcome {A} (run : list Event * A) : A := snd run.
Definition calls {A} (run : list Event * A) : list Event := fst run.

(** A computation hands every failed lookup it made to its caller: when a
    logged call failed with [e], the enclosing function has returned
    [fail e]. *)
Definition propagates {R A} (fail : Error -> R) (m : M R A) : Prop :=
  forall ev e, In ev (fst m) -> ev_err ev = Some e -> snd m = Return (fail e).

(** The table has a column with the auto-increment flag set. *)
Definition hasAutoIncrement (t : Table) : Prop :=
  exists col, In col (Schema t) /\ AutoIncrement col = true.

(** The database name validateTruncate scans for (lines 113-117). *)
Definition normalizedDbName (ctx : Context) (dbName : string) : string :=
  if dbName =? "" then ToLower (GetCurrentDatabase ctx) else ToLower dbName.

(** The listing of the database succeeds. *)
Definition listingSucceeds (db : Database) : Prop :=
  exists names, GetTableNames db = Ok names.

(** The database lists a table whose name is that of [t], letter case
    apart. *)
Definition listsTable (t : Table) (db : Database) : Prop :=
  exists names n,
    GetTableNames db = Ok names /\ In n names /\
    ToLower n = ToLower (Table_Name t).

(** The listing of the database succeeds and holds no such name. *)
Definition listsNoSuchTable (t : Table) (db : Database) : Prop :=
  exists names,
    GetTableNames db = Ok names /\
    Forall (fun n => ToLower n <> ToLower (Table_Name t)) names.

(** Loading the triggers of the database succeeds. *)
Definition triggersLoad (db : Database) : Prop :=
  exists triggers, loadTriggersFromDb db = Ok triggers.

(** The database defines the trigger. *)
Definition definesTrigger (db : Database) (tr : CreateTrigger) : Prop :=
  exists triggers, loadTriggersFromDb db = Ok triggers /\ In tr triggers.

(** The trigger, defined in database [owner], is on the table [t] of the
    database named [dbName]: its target is an unresolved-table reference
    with the name of [t] that either carries no qualifier while [owner] is
    that database, or is qualified with its name. *)
Definition triggerTargets (t : Table) (dbName : string) (owner : Database)
    (tr : CreateTrigger) : Prop :=
  exists name database,
    Trigger_Table tr = UnresolvedTable name database /\
    ToLower name = ToLower (Table_Name t) /\
    ((database = "" /\ Database_Name owner = dbName) \/
     (database <> "" /\ ToLower database = ToLower dbName)).

(** The target of the trigger is not an unresolved-table reference. *)
Definition targetUnresolvable (tr : CreateTrigger) : Prop :=
  forall name database, Trigger_Table tr <> UnresolvedTable name database.

Definition isInsertOrUpdate (tr : CreateTrigger) : bool :=
  ((TriggerEvent tr =? InsertStr) || (TriggerEvent tr =? UpdateStr))%bool.

(** The same database without its insert and update triggers. *)
Definition withoutInsertUpdateTriggers (db : Database) : Database :=
  {| Database_Name := Database_Name db;
     GetTableNames := GetTableNames db;
     GetTableInsensitive := GetTableInsensitive db;
     loadTriggersFromDb :=
       match loadTriggersFromDb db with
       | Ok triggers => Ok (filter (fun tr => negb (isInsertOrUpdate tr)) triggers)
       | Err e => Err e
       end |}.

Definition dropInsertUpdateTriggers (a : Analyzer) : Analyzer :=
  analyzerOf (map withoutInsertUpdateTriggers (AllDatabases (Analyzer_Catalog a))).

(** What makes line 81 or line 87 return when the loop over the triggers
    of [db] reaches a delete trigger [tr]. *)
Definition blocks (tblName dbName dbNameLower : string) (db : Database)
    (tr : CreateTrigger) : bool :=
  match Trigger_Table tr with
  | UnresolvedTable name database =>
      triggerIsOn tblName dbName dbNameLower db name database
  | _ => true
  end.

(** The table holds no foreign key that references the table named
    [tableName] (in lower case), and its foreign keys can be read. *)
Definition holdsNoReference (tableName : string) (u : Table) : Prop :=
  match GetForeignKeys u with
  | None => True
  | Some (Ok fks) =>
      Forall (fun fk => ToLower (ReferencedTable fk) <> tableName) fks
  | Some (Err _) => False
  end.

(** The name is that of the target table, or it fetches a table that
    holds no reference to the target. *)
Definition entryIsClean (tableName : string) (db : Database) (n : string) : Prop :=
  ToLower n <> tableName ->
  exists u, GetTableInsensitive db n = Ok (Some u) /\ holdsNoReference tableName u.

(** The listing of the database succeeds and all its entries are clean:
    whatever foreign keys reference the target are held by the target
    itself. *)
Definition othersHoldNoReference (tableName : string) (db : Database) : Prop :=
  exists names,
    GetTableNames db = Ok names /\ Forall (entryIsClean tableName db) names.

(** The above, for every database that validateTruncate scans. *)
Definition scanIsClean (dbName tableName : string) (dbs : list Database) : Prop :=
  Forall (fun db => ToLower (Database_Name db) = dbName ->
                    othersHoldNoReference tableName db) dbs.

(** The call fetches a table or its foreign keys under the name [n]. *)
Definition fetches (n : string) (k : Lookup) : Prop :=
  match k with
  | CallGetTableInsensitive _ m | CallGetForeignKeys _ m => m = n
  | _ => False
  end.

(** What validateTruncate returns when a lookup fails with [e]. *)
Definition failValidate (e : Error) : Verdict := (true, Some e).

(** The call is not a fetch of the table named [tableName], letter case
    apart, nor of its foreign keys. *)
Definition passesOver (tableName : string) (ev : Event) : Prop :=
  forall n, fetches n (ev_lookup ev) -> ToLower n <> tableName.

(** The listing of the database succeeds and holds the name of [t], letter
    case apart, exactly once. *)
Definition listsOnce (t : Table) (db : Database) : Prop :=
  exists names1 n names2,
    GetTableNames db = Ok (names1 ++ n :: names2) /\
    ToLower n = ToLower (Table_Name t) /\
    Forall (fun m => ToLower m <> ToLower (Table_Name t)) (names1 ++ names2).

(** The triggers of the database load, and each delete trigger among them
    has an unresolved-table reference as its target that is not on the
    table [t] of the database named [dbName]. *)
Definition noDeleteTriggerOn (t : Table) (dbName : string) (db : Database) : Prop :=
  exists triggers,
    loadTriggersFromDb db = Ok triggers /\
    Forall (fun tr =>
              TriggerEvent tr = DeleteStr ->
              exists name database,
                Trigger_Table tr = UnresolvedTable name database /\
                (ToLower name <> ToLower (Table_Name t) \/
                 (~ (database = "" /\ Database_Name db = dbName) /\
                  ToLower database <> ToLower dbName)))
           triggers.

End PassVocabulary.

(* ================================================================== *)
(** * sql/walk.go, continued: WalkWithNode and InspectNode *)

Section NodeWalker.

Variable St : Type.

(** [sql.NodeVisitor]: as [sql.Visitor], with [Visit(node, expression)].
    The node is [None] for Go's [nil]. *)
Variable V : Type.
Variable NVisit : V -> option Node -> option Expression -> St -> St * option V.

(** One call [v.Visit(node, arg)] made by WalkWithNode. *)
Definition NodeVisitCall : Type := (V * option Node * option Expression)%type.

(** [WalkWithNode(v, n, expr)]: the state after the walk and the calls of
    Visit it made, in order. *)
Fixpoint WalkWithNode (v : V) (n : option Node) (expr : Expression) (s : St)
    : St * list NodeVisitCall :=
  match expr with
  | Expr _ children =>
      match NVisit v n (Some expr) s with
      | (s1, None) => (s1, [(v, n, Some expr)])
      | (s1, Some w) =>
          let '(s2, calls) :=
            (fix range (cs : list Expression) (s : St) : St * list NodeVisitCall :=
               match cs with
               | [] => (s, [])
               | child :: rest =>
                   let '(sa, ca) := WalkWithNode w n child s in
                   let '(sb, cb) := range rest sa in
                   (sb, ca ++ cb)
               end) children s1 in
          (fst (NVisit w None None s2), (v, n, Some expr) :: calls ++ [(w, None, None)])
      end
  end.

(** The loop [for _, child := range expr.Children()] of WalkWithNode on
    its own. *)
Fixpoint WalkWithNodeChildren (w : V) (n : option Node) (cs : list Expression)
    (s : St) : St * list NodeVisitCall :=
  match cs with
  | [] => (s, [])
  | child :: rest =>
      let '(sa, ca) := WalkWithNode w n child s in
      let '(sb, cb) := WalkWithNodeChildren w n rest sa in
      (sb, ca ++ cb)
  end.

(** The visitor of Walk that a node visitor becomes once the node is
    fixed: the node goes with every expression, [nil] with [nil]. *)
Definition withNode (n : option Node) (v : V) (arg : option Expression)
    : St -> St * option V :=
  match arg with
  | Some e => NVisit v n (Some e)
  | None => NVisit v None None
  end.

(** A call of Walk, with the node that WalkWithNode passes next to it. *)
Definition tagWithNode (n : option Node) (c : VisitCall V) : NodeVisitCall :=
  match c with
  | (v, Some e) => (v, n, Some e)
  | (v, None) => (v, None, None)
  end.

End NodeWalker.

(** The expressions of a tree, in depth-first order, parents first. *)
Fixpoint preorder (e : Expression) : list Expression :=
  match e with
  | Expr _ children => e :: flat_map preorder children
  end.

(** The expressions a log of calls visits, in order, and the number of
    its calls with the [nil] expression. *)
Definition visited {V} (log : list (VisitCall V)) : list Expression :=
  flat_map (fun c => match snd c with Some x => [x] | None => [] end) log.

Definition sentinels {V} (log : list (VisitCall V)) : nat :=
  length (filter (fun c => match snd c with Some _ => false | None => true end) log).

Arguments visited : simpl never.
Arguments sentinels : simpl never.

(* ================================================================== *)
(** * Vocabulary for reading results back *)

Section ReadingBack.

Context {L : Lowering}.

(** What the scan of the tables of [db] stops on, for the target named
    [tableName]: a listed name other than the target whose fetch fails, or
    finds nothing, or finds a table whose foreign keys cannot be read, or
    a table with a foreign key referencing the target; [v] is the verdict
    the code gives in each case (lines 133-150). *)
Definition scanStopsOn (tableName : string) (db : Database) (n : string)
    (v : Verdict) : Prop :=
  ToLower n <> tableName /\
  match GetTableInsensitive db n with
  | Err e => v = (true, Some e)
  | Ok None => v = (true, Some (ErrTableNotFound n))
  | Ok (Some u) =>
      match GetForeignKeys u with
      | Some (Err e) => v = (true, Some e)
      | Some (Ok fks) =>
          exists fk, In fk fks /\ ToLower (ReferencedTable fk) = tableName /\
                     v = (false, Some (ErrTruncateReferencedFromForeignKey
                                         tableName (fk_Name fk) n))
      | None => False
      end
  end.

(** The table [u] of database [d], listed under the name [n], holds the
    foreign key [fk], which references the table named [tableName]. *)
Definition referencedBy (tableName : string) (d : Database) (n : string)
    (fk : ForeignKeyConstraint) : Prop :=
  exists names u fks,
    GetTableNames d = Ok names /\ In n names /\ ToLower n <> tableName /\
    GetTableInsensitive d n = Ok (Some u) /\
    GetForeignKeys u = Some (Ok fks) /\ In fk fks /\
    ToLower (ReferencedTable fk) = tableName.

(** The error is one that a lookup on a database of the list failed with. *)
Definition lookupFailsWith (dbs : list Database) (e : Error) : Prop :=
  exists d, In d dbs /\
    (GetTableNames d = Err e \/ loadTriggersFromDb d = Err e \/
     exists n, GetTableInsensitive d n = Err e \/
               exists u, GetTableInsensitive d n = Ok (Some u) /\
                         GetForeignKeys u = Some (Err e)).

(** The database lists a name that it cannot fetch. *)
Definition listsUnfetchable (d : Database) (n : string) : Prop :=
  exists names, GetTableNames d = Ok names /\ In n names /\
                GetTableInsensitive d n = Ok None.

(** The database a call is made on, if it is made on one. *)
Definition databaseOf (k : Lookup) : option string :=
  match k with
  | CallAllDatabases => None
  | CallGetTableNames db | CallLoadTriggers db
  | CallGetTableInsensitive db _ | CallGetForeignKeys db _ => Some db
  end.

(** All calls of the log but the last one succeeded. *)
Definition onlyLastMayFail (log : list Event) : Prop :=
  Forall (fun ev => ev_err ev = None) (removelast log).

End ReadingBack.

(** Modelled from the spec: the [Children()] of the plan nodes are not
    among the sources.  A plan node exposes an ordered sequence of child
    nodes: a resolved or unresolved table has none, a Delete and a
    Truncate wrap one child, and any other node has the children it is
    built from. *)
Definition Node_Children (n : Node) : list Node :=
  match n with
  | ResolvedTable _ | UnresolvedTable _ _ => []
  | DeleteFrom c | Truncate _ c => [c]
  | OtherNode _ cs => cs
  end.

(** The function given to InspectNode: it reads and writes the state and
    answers whether to descend; its argument is [None] for [nil]. *)
Definition nodeInspector (St : Type) : Type := option Node -> St -> St * bool.

(** [nodeWalk(v, n)] of InspectNode (lines 76-84): the state after the
    walk and the arguments of the calls of [v], in order. *)
Fixpoint nodeWalk {St} (v : nodeInspector St) (n : Node) (s : St)
    : St * list (option Node) :=
  let '(s1, b) := v (Some n) s in
  if negb b then (s1, [Some n])
  else
    let '(s2, calls) :=
      match n with
      | ResolvedTable _ | UnresolvedTable _ _ => (s1, [])
      | DeleteFrom c | Truncate _ c =>
          let '(sa, ca) := nodeWalk v c s1 in (sa, ca ++ [])
      | OtherNode _ cs =>
          (fix range (cs : list Node) (s : St) : St * list (option Node) :=
             match cs with
             | [] => (s, [])
             | child :: rest =>
                 let '(sa, ca) := nodeWalk v child s in
                 let '(sb, cb) := range rest sa in
                 (sb, ca ++ cb)
             end) cs s1
      end in
    (fst (v None s2), Some n :: calls ++ [None]).

(** The loop [for _, child := range n.Children()] of nodeWalk on its
    own. *)
Fixpoint nodeWalkChildren {St} (v : nodeInspector St) (cs : list Node) (s : St)
    : St * list (option Node) :=
  match cs with
  | [] => (s, [])
  | child :: rest =>
      let '(sa, ca) := nodeWalk v child s in
      let '(sb, cb) := nodeWalkChildren v rest sa in
      (sb, ca ++ cb)
  end.

(** [InspectNode(node, f)]. *)
Definition InspectNode {St} (node : Node) (f : nodeInspector St) (s : St)
    : St * list (option Node) :=
  nodeWalk f node s.

(** The nodes of a plan, in depth-first order, parents first. *)
Fixpoint Node_preorder (n : Node) : list Node :=
  n :: match n with
       | ResolvedTable _ | UnresolvedTable _ _ => []
       | DeleteFrom c | Truncate _ c => Node_preorder c ++ []
       | OtherNode _ cs => flat_map Node_preorder cs
       end.

(** The nodes a log of calls names, in order, and the number of its calls
    with [nil]. *)
Definition visitedNodes (log : list (option Node)) : list Node :=
  flat_map (fun c => match c with Some x => [x] | None => [] end) log.

Definition nodeSentinels (log : list (option Node)) : nat :=
  length (filter (fun c => match c with Some _ => false | None => true end) log).

(** A plan: a projection over a join of two tables, one of them read
    through a DELETE. *)
Definition samplePlan : Node :=
  OtherNode "Project"
    [OtherNode "Join" [ResolvedTable orders; DeleteFrom (ResolvedTable employees)]].

(** The expressions of a tree that are reached when the descent stops at
    the expressions on which [p] answers [false], in depth-first order,
    parents first. *)
Fixpoint prunedPreorder (p : Expression -> bool) (e : Expression)
    : list Expression :=
  match e with
  | Expr _ children =>
      e :: (if p e then flat_map (prunedPreorder p) children else [])
  end.

(* ================================================================== *)
(** * Properties of Walk *)

Section WalkerFacts.

Variables (St V : Type).
Variable Visit : V -> option Expression -> St -> St * option V.

Lemma Walk_range_eq (w : V) (cs : list Expression) : forall s,
  (fix range (cs : list Expression) (s : St) : St * list (VisitCall V) :=
     match cs with
     | [] => (s, [])
     | child :: rest =>
         let '(sa, ca) := Walk Visit w child s in
         let '(sb, cb) := range rest sa in
         (sb, ca ++ cb)
     end) cs s = WalkChildren Visit w cs s.
Proof.
  induction cs as [|c cs IH]; intros s; simpl.
  - reflexivity.
  - destruct (Walk Visit w c s) as [sa ca]. rewrite IH. reflexivity.
Qed.

(** Walk, one level unfolded. *)
Lemma Walk_eq (v : V) (e : Expression) (s : St) :
  Walk Visit v e s =
  match Visit v (Some e) s with
  | (s1, None) => (s1, [(v, Some e)])
  | (s1, Some w) =>
      let '(s2, calls) := WalkChildren Visit w (Children e) s1 in
      (fst (Visit w None s2), (v, Some e) :: calls ++ [(w, None)])
  end.
Proof.
  destruct e as [l cs]. simpl.
  destruct (Visit v (Some (Expr l cs)) s) as [s1 [w|]]; [|reflexivity].
  rewrite Walk_range_eq. reflexivity.
Qed.

(** The first call a walk makes is the visit of its root. *)
Lemma Walk_first_call (v : V) (e : Expression) (s : St) :
  exists rest, snd (Walk Visit v e s) = (v, Some e) :: rest.
Proof.
  rewrite Walk_eq.
  destruct (Visit v (Some e) s) as [s1 [w|]].
  - destruct (WalkChildren Visit w (Children e) s1) as [s2 calls].
    simpl. eauto.
  - simpl. eauto.
Qed.

(** The loop over the children, split at one of them. *)
Lemma WalkChildren_app (w : V) (xs ys : list Expression) : forall s,
  WalkChildren Visit w (xs ++ ys) s =
  (fst (WalkChildren Visit w ys (fst (WalkChildren Visit w xs s))),
   snd (WalkChildren Visit w xs s) ++
   snd (WalkChildren Visit w ys (fst (WalkChildren Visit w xs s)))).
Proof.
  induction xs as [|x xs IH]; intros s; simpl.
  - destruct (WalkChildren Visit w ys s); reflexivity.
  - destruct (Walk Visit w x s) as [sa ca]. rewrite IH.
    destruct (WalkChildren Visit w xs sa) as [sb cb]. simpl.
    rewrite app_assoc. reflexivity.
Qed.

Lemma WalkChildren_visits_each (w : V) (cs : list Expression) : forall s c,
  In c cs -> In (w, Some c) (snd (WalkChildren Visit w cs s)).
Proof.
  induction cs as [|x cs IH]; intros s c Hin; simpl in *.
  - contradiction.
  - destruct (Walk_first_call w x s) as [rest Hrest].
    destruct (Walk Visit w x s) as [sa ca]. simpl in Hrest. subst ca.
    specialize (IH sa c).
    destruct (WalkChildren Visit w cs sa) as [sb cb]. simpl in *.
    destruct Hin as [->|Hin].
    + now left.
    + right. apply in_or_app. right. auto.
Qed.

(** C7.  Walk of a node [e] with visitor [v], and the loop over a list of
    siblings with visitor [v].
    - If [v.Visit(e)] hands back no visitor, the walk of [e] consists of
      that one call: no child of [e] is visited and no call with the nil
      sentinel is made.
    - If it hands back [w], the walk consists of that call, then the
      walks of the children of [e], in order, each with [w], then one
      call [w.Visit(nil)], and nothing else.
    - If [e] stands among siblings walked with [v] and is pruned, the
      siblings after it are walked with [v] all the same, from the state
      the pruned call left.
    - Every sibling in a list walked with [v] is visited with [v],
      whichever of them are pruned. *)
Theorem Walk_prunes_subtree_not_siblings (v : V) (e : Expression) (s : St) :
  (forall s1, Visit v (Some e) s = (s1, None) ->
     Walk Visit v e s = (s1, [(v, Some e)]))
  /\ (forall s1 w, Visit v (Some e) s = (s1, Some w) ->
     Walk Visit v e s =
     (fst (Visit w None (fst (WalkChildren Visit w (Children e) s1))),
      (v, Some e) :: snd (WalkChildren Visit w (Children e) s1)
                  ++ [(w, None)]))
  /\ (forall before after s1,
     Visit v (Some e) (fst (WalkChildren Visit v before s)) = (s1, None) ->
     WalkChildren Visit v (before ++ e :: after) s =
     (fst (WalkChildren Visit v after s1),
      snd (WalkChildren Visit v before s) ++ (v, Some e)
        :: snd (WalkChildren Visit v after s1)))
  /\ (forall siblings c, In c siblings ->
     In (v, Some c) (snd (WalkChildren Visit v siblings s))).
Proof.
  repeat split.
  - intros s1 H. rewrite Walk_eq, H. reflexivity.
  - intros s1 w H. rewrite Walk_eq, H.
    destruct (WalkChildren Visit w (Children e) s1); reflexivity.
  - intros before after s1 H. rewrite WalkChildren_app. simpl.
    rewrite Walk_eq, H.
    destruct (WalkChildren Visit v after s1); reflexivity.
  - intros siblings c Hin. now apply WalkChildren_visits_each.
Qed.

End WalkerFacts.

Unset Implicit Arguments.

Section PassFacts.

Context {L : Lowering}.

(* ================================================================== *)
(** * The log: failed lookups are handed to the caller *)

Section Propagation.

Variable R : Type.
Variable fail : Error -> R.

Lemma propagates_ret {A} (a : A) : propagates fail (ret a).
Proof. intros ev e []. Qed.

Lemma propagates_exit {A} (r : R) : propagates fail (@exit R A r).
Proof. intros ev e []. Qed.

Lemma propagates_lift {A} (f : Flow R A) : propagates fail (lift f).
Proof. intros ev e []. Qed.

Lemma propagates_bind {A B} (m : M R A) (f : A -> M R B) :
  propagates fail m -> (forall a, propagates fail (f a)) ->
  propagates fail (bind m f).
Proof.
  intros Hm Hf ev e. destruct m as [l [a|r]]; unfold bind; simpl.
  - specialize (Hf a). destruct (f a) as [l' x] eqn:E. simpl.
    intros Hin Herr. apply in_app_or in Hin as [Hin|Hin].
    + specialize (Hm ev e Hin Herr). discriminate.
    + exact (Hf ev e Hin Herr).
  - intros Hin Herr. specialize (Hm ev e Hin Herr). simpl in Hm.
    inversion Hm; subst. reflexivity.
Qed.

(** A call whose failure makes the function return [fail err]. *)
Lemma propagates_call {A B} (k : Lookup) (r : result A)
    (f : result A -> M R B) :
  (forall e, f (Err e) = exit (fail e)) ->
  (forall x, propagates fail (f (Ok x))) ->
  propagates fail (bind (call k r) f).
Proof.
  intros Herr Hok ev e. destruct r as [x|e0]; unfold bind, call; simpl.
  - specialize (Hok x). destruct (f (Ok x)) as [l' y]. simpl.
    intros [<-|Hin] He; [discriminate|]. exact (Hok ev e Hin He).
  - rewrite Herr. simpl. intros [<-|[]] He. simpl in He.
    now inversion He.
Qed.

Lemma propagates_allDatabases {B} (a : Analyzer)
    (f : list Database -> M R B) :
  (forall dbs, propagates fail (f dbs)) ->
  propagates fail (bind (allDatabases a) f).
Proof.
  intros Hf ev e. unfold allDatabases, bind. simpl.
  specialize (Hf (AllDatabases (Analyzer_Catalog a))).
  destruct (f _) as [l' y]. simpl.
  intros [<-|Hin] He; [discriminate|]. exact (Hf ev e Hin He).
Qed.

Lemma propagates_run (m : M R R) ev e :
  propagates fail m -> In ev (fst (run m)) -> ev_err ev = Some e ->
  snd (run m) = fail e.
Proof.
  intros Hm. destruct m as [l [r|r]]; simpl; intros Hin He;
    specialize (Hm ev e Hin He); simpl in Hm; now inversion Hm.
Qed.

End Propagation.

Lemma rangeTableNames_propagates db tableName tableNames :
  propagates failValidate (rangeTableNames db tableName tableNames).
Proof.
  induction tableNames as [|n rest IH]; simpl.
  - apply propagates_ret.
  - destruct (ToLower n =? tableName); [exact IH|].
    apply propagates_call; [reflexivity|].
    intros [t|].
    + destruct (GetForeignKeys t) as [g|]; [|exact IH].
      apply propagates_call; [reflexivity|].
      intros fks. apply propagates_bind; [apply propagates_lift|].
      intros _. exact IH.
    + apply propagates_exit.
Qed.

Lemma rangeDatabases_propagates dbName tableName dbs :
  propagates failValidate (rangeDatabases dbName tableName dbs).
Proof.
  induction dbs as [|db rest IH]; simpl.
  - apply propagates_ret.
  - destruct (negb _); [exact IH|].
    apply propagates_call; [reflexivity|].
    intros names. apply propagates_bind.
    + apply rangeTableNames_propagates.
    + intros _. exact IH.
Qed.

Lemma validateTruncate_propagates ctx a dbName tbl ev e :
  In ev (calls (validateTruncate ctx a dbName tbl)) -> ev_err ev = Some e ->
  outcome (validateTruncate ctx a dbName tbl) = (true, Some e).
Proof.
  unfold validateTruncate, calls, outcome.
  destruct (GetTruncatable tbl) as [t|err]; [|intros []].
  apply (propagates_run _ failValidate).
  apply propagates_allDatabases. intros dbs.
  apply propagates_bind; [apply rangeDatabases_propagates|].
  intros _. apply propagates_ret.
Qed.

Lemma rangeFindTable_propagates deletePlan tblName dbs : forall st,
  propagates (@Err Node) (rangeFindTable deletePlan tblName dbs st).
Proof.
  induction dbs as [|db rest IH]; intros st; simpl.
  - apply propagates_ret.
  - apply propagates_call; [reflexivity|].
    intros names. apply propagates_bind; [apply propagates_lift|].
    intros st'. apply IH.
Qed.

Lemma rangeDbTriggers_propagates deletePlan tblName dbName dbNameLower dbs :
  propagates (@Err Node)
    (rangeDbTriggers deletePlan tblName dbName dbNameLower dbs).
Proof.
  induction dbs as [|db rest IH]; simpl.
  - apply propagates_ret.
  - apply propagates_call; [reflexivity|].
    intros ts. apply propagates_bind; [apply propagates_lift|].
    intros _. exact IH.
Qed.

Lemma deleteToTruncate_propagates ctx a Child ev e :
  In ev (calls (deleteToTruncate ctx a Child)) -> ev_err ev = Some e ->
  outcome (deleteToTruncate ctx a Child) = Err e.
Proof.
  unfold deleteToTruncate, calls, outcome.
  destruct Child as [t| | | |]; try (intros []).
  destruct (existsb AutoIncrement (Schema t)); [intros []|].
  apply (propagates_run _ (@Err Node)).
  apply propagates_allDatabases. intros dbs.
  apply propagates_bind; [apply rangeFindTable_propagates|].
  intros [tblFound dbName].
  destruct (negb tblFound); [apply propagates_exit|].
  apply propagates_allDatabases. intros dbs'.
  apply propagates_bind; [apply rangeDbTriggers_propagates|].
  intros _.
  pose proof (validateTruncate_propagates ctx a (ToLower dbName)
                (ResolvedTable t)) as Hv.
  unfold calls, outcome in Hv.
  destruct (validateTruncate ctx a (ToLower dbName) (ResolvedTable t))
    as [l [ok err]] eqn:E.
  intros ev' e' Hin He. unfold bind, invoke in *. simpl in *.
  destruct ok; [destruct err|]; simpl in *; rewrite app_nil_r in Hin;
    specialize (Hv ev' e' Hin He); inversion Hv; subst; reflexivity.
Qed.

(** C8.  Whenever a catalog, database, table or trigger lookup made while
    processTruncate runs fails with an error [e] -- whether it is made by
    processTruncate's own call of validateTruncate, by deleteToTruncate, or
    by the validateTruncate that deleteToTruncate calls -- the caller of
    processTruncate receives [e]: the result is never a node. *)
Theorem lookup_errors_reach_the_caller (ctx : Context) (a : Analyzer)
    (n : Node) (ev : Event) (e : Error) :
  In ev (calls (processTruncate ctx a n)) -> ev_err ev = Some e ->
  outcome (processTruncate ctx a n) = Err e.
Proof.
  destruct n as [t|name d|Child|db Child|k cs]; simpl;
    try (intros []).
  - apply deleteToTruncate_propagates.
  - pose proof (@validateTruncate_propagates ctx a db Child ev e) as Hv.
    unfold calls, outcome in *.
    destruct (validateTruncate ctx a db Child) as [l [ok err]].
    simpl in Hv. intros Hin He.
    destruct err; simpl in *; specialize (Hv Hin He); inversion Hv; subst;
      reflexivity.
Qed.

(* ================================================================== *)
(** * Results of binds and of the two functions *)

Lemma snd_bind {R A B} (m : M R A) (f : A -> M R B) :
  snd (bind m f) =
  match snd m with
  | Next a => snd (f a)
  | Return r => Return r
  end.
Proof.
  unfold bind. destruct m as [l [a|r]]; simpl; [|reflexivity].
  destruct (f a); reflexivity.
Qed.

Lemma snd_run {R} (m : M R R) :
  snd (run m) = match snd m with Next r => r | Return r => r end.
Proof. destruct m as [l [r|r]]; reflexivity. Qed.

(** The result of validateTruncate, read off its loop. *)
Lemma validateTruncate_outcome ctx a dbName tbl tr :
  GetTruncatable tbl = Ok tr ->
  outcome (validateTruncate ctx a dbName tbl) =
  match snd (rangeDatabases (normalizedDbName ctx dbName)
               (ToLower (Table_Name tr)) (AllDatabases (Analyzer_Catalog a))) with
  | Next _ => (true, None)
  | Return v => v
  end.
Proof.
  intros H. unfold outcome, validateTruncate. rewrite H.
  rewrite snd_run, snd_bind. simpl. rewrite snd_bind.
  unfold normalizedDbName.
  destruct (snd (rangeDatabases _ _ _)); reflexivity.
Qed.

(** The result of deleteToTruncate on a resolved table, read off its loops
    and the verdict of validateTruncate. *)
Lemma deleteToTruncate_outcome ctx a t :
  existsb AutoIncrement (Schema t) = false ->
  let deletePlan := DeleteFrom (ResolvedTable t) in
  let tblName := ToLower (Table_Name t) in
  let dbs := AllDatabases (Analyzer_Catalog a) in
  outcome (deleteToTruncate ctx a (ResolvedTable t)) =
  match snd (rangeFindTable deletePlan tblName dbs (false, "")) with
  | Return r => r
  | Next (false, _) => Ok deletePlan
  | Next (true, dbName) =>
      match snd (rangeDbTriggers deletePlan tblName dbName (ToLower dbName) dbs) with
      | Return r => r
      | Next _ =>
          match outcome (validateTruncate ctx a (ToLower dbName) (ResolvedTable t)) with
          | (true, Some e) => Err e
          | (true, None) => Ok (Truncate dbName (ResolvedTable t))
          | (false, _) => Ok deletePlan
          end
      end
  end.
Proof.
  intros H. unfold outcome, deleteToTruncate. rewrite H.
  rewrite snd_run, snd_bind. simpl.
  rewrite snd_bind.
  destruct (snd (rangeFindTable _ _ _ _)) as [[[|] dbName]|r]; simpl;
    try reflexivity.
  rewrite snd_bind. simpl. rewrite snd_bind.
  destruct (snd (rangeDbTriggers _ _ _ _ _)) as [[]|r]; simpl;
    try reflexivity.
  rewrite snd_bind. unfold invoke. simpl.
  destruct (snd (validateTruncate _ _ _ _)) as [[|] [e|]]; reflexivity.
Qed.

(* ================================================================== *)
(** * Auto-increment columns *)

Lemma hasAutoIncrement_existsb (t : Table) :
  hasAutoIncrement t <-> existsb AutoIncrement (Schema t) = true.
Proof.
  unfold hasAutoIncrement. rewrite existsb_exists. reflexivity.
Qed.

(** C5.  A DELETE on a resolved table that has an auto-increment column is
    handed back as it is, with no error, whatever the context and the
    catalog; the log of collaborator calls is empty, so the decision is
    taken before the catalog is asked anything. *)
Theorem auto_increment_keeps_delete (ctx : Context) (a : Analyzer) (t : Table) :
  hasAutoIncrement t ->
  deleteToTruncate ctx a (ResolvedTable t)
    = ([], Ok (DeleteFrom (ResolvedTable t)))
  /\ processTruncate ctx a (DeleteFrom (ResolvedTable t))
    = ([], Ok (DeleteFrom (ResolvedTable t))).
Proof.
  intros H. apply hasAutoIncrement_existsb in H.
  simpl. unfold deleteToTruncate. rewrite H. split; reflexivity.
Qed.

(* ================================================================== *)
(** * A target database the catalog does not know *)

Lemma rangeDatabases_no_match dbName tableName dbs :
  Forall (fun db => ToLower (Database_Name db) <> dbName) dbs ->
  rangeDatabases dbName tableName dbs = ret tt.
Proof.
  induction 1 as [|db rest Hdb _ IH]; simpl.
  - reflexivity.
  - apply String.eqb_neq in Hdb. rewrite Hdb. simpl. exact IH.
Qed.

(** C10, amended.  When the table reference is truncatable and no database
    of the catalog has the normalized target name, validateTruncate lists
    the databases and asks nothing else, and answers (true, no error); an
    explicit TRUNCATE of that reference is handed back with no error.
    When the reference is not truncatable, validateTruncate asks nothing
    and answers (false, error) with the error of GetTruncatable, whatever
    the database name, and the explicit TRUNCATE fails with it. *)
Theorem unknown_database_passes_validation (ctx : Context) (a : Analyzer)
    (dbName : string) (tbl : Node) :
  (forall tr,
      GetTruncatable tbl = Ok tr ->
      Forall (fun db => ToLower (Database_Name db) <> normalizedDbName ctx dbName)
             (AllDatabases (Analyzer_Catalog a)) ->
      validateTruncate ctx a dbName tbl
        = ([{| ev_lookup := CallAllDatabases; ev_err := None |}], (true, None))
      /\ processTruncate ctx a (Truncate dbName tbl)
        = ([{| ev_lookup := CallAllDatabases; ev_err := None |}],
           Ok (Truncate dbName tbl)))
  /\ (forall e,
      GetTruncatable tbl = Err e ->
      validateTruncate ctx a dbName tbl = ([], (false, Some e))
      /\ processTruncate ctx a (Truncate dbName tbl) = ([], Err e)).
Proof.
  split.
  - intros tr Htr Hno.
    assert (Hv : validateTruncate ctx a dbName tbl
      = ([{| ev_lookup := CallAllDatabases; ev_err := None |}], (true, None))).
    { unfold validateTruncate. rewrite Htr.
      fold (normalizedDbName ctx dbName).
      unfold bind at 1, allDatabases. cbv beta iota.
      rewrite (rangeDatabases_no_match _ _ _ Hno). reflexivity. }
    split; [exact Hv|]. simpl. rewrite Hv. reflexivity.
  - intros e He.
    assert (Hv : validateTruncate ctx a dbName tbl = ([], (false, Some e))).
    { unfold validateTruncate. now rewrite He. }
    split; [exact Hv|]. simpl. rewrite Hv. reflexivity.
Qed.

(* ================================================================== *)
(** * The search for the table among the databases *)

Section FindTable.

Variable deletePlan : Node.
Variable tblName : string.

Let matches (names : list string) : bool :=
  existsb (fun n => ToLower n =? tblName) names.

Lemma rangeDbTblNames_none db names st :
  matches names = false ->
  rangeDbTblNames deletePlan tblName db names st = Next st.
Proof.
  unfold matches. induction names as [|n rest IH]; simpl; intros H.
  - reflexivity.
  - apply orb_false_iff in H as [Hn Hrest]. rewrite Hn. auto.
Qed.

Lemma rangeDbTblNames_found db names dbName :
  matches names = true ->
  rangeDbTblNames deletePlan tblName db names (true, dbName)
    = Return (Ok deletePlan).
Proof.
  unfold matches. induction names as [|n rest IH]; simpl; intros H.
  - discriminate.
  - destruct (ToLower n =? tblName); simpl in *; auto.
Qed.

(** Once the table is found, the loop either leaves the state alone or
    gives up. *)
Lemma rangeDbTblNames_after_found db names dbName :
  rangeDbTblNames deletePlan tblName db names (true, dbName)
    = (if matches names then Return (Ok deletePlan) else Next (true, dbName)).
Proof.
  destruct (matches names) eqn:E.
  - now apply rangeDbTblNames_found.
  - now apply rangeDbTblNames_none.
Qed.

(** From a state in which the table is not found yet. *)
Lemma rangeDbTblNames_fresh db names dbName :
  matches names = true ->
  rangeDbTblNames deletePlan tblName db names (false, dbName)
    = Return (Ok deletePlan)
  \/ rangeDbTblNames deletePlan tblName db names (false, dbName)
    = Next (true, Database_Name db).
Proof.
  unfold matches. induction names as [|n rest IH]; simpl; intros H.
  - discriminate.
  - destruct (ToLower n =? tblName); simpl in *.
    + rewrite rangeDbTblNames_after_found.
      destruct (matches rest); auto.
    + auto.
Qed.

Lemma rangeDbTblNames_cases db names st :
  rangeDbTblNames deletePlan tblName db names st = Return (Ok deletePlan)
  \/ exists st', rangeDbTblNames deletePlan tblName db names st = Next st'.
Proof.
  destruct (matches names) eqn:E.
  - destruct st as [[|] dbName].
    + left. now apply rangeDbTblNames_found.
    + destruct (rangeDbTblNames_fresh db names dbName E); eauto.
  - right. exists st. now apply rangeDbTblNames_none.
Qed.

(** One round of the outer loop, on a database whose listing succeeds. *)
Lemma rangeFindTable_cons db rest names st :
  GetTableNames db = Ok names ->
  snd (rangeFindTable deletePlan tblName (db :: rest) st) =
  match rangeDbTblNames deletePlan tblName db names st with
  | Next st' => snd (rangeFindTable deletePlan tblName rest st')
  | Return r => Return r
  end.
Proof.
  intros H. simpl. rewrite snd_bind. unfold call. simpl. rewrite H.
  rewrite snd_bind. reflexivity.
Qed.

Lemma rangeFindTable_failed db rest e st :
  GetTableNames db = Err e ->
  snd (rangeFindTable deletePlan tblName (db :: rest) st) = Return (Err e).
Proof.
  intros H. simpl. rewrite snd_bind. unfold call. simpl. rewrite H.
  reflexivity.
Qed.

(** The table was found already, and a later database lists it too. *)
Lemma rangeFindTable_second pre d2 post names dbName :
  Forall listingSucceeds pre ->
  GetTableNames d2 = Ok names -> matches names = true ->
  snd (rangeFindTable deletePlan tblName (pre ++ d2 :: post) (true, dbName))
    = Return (Ok deletePlan).
Proof.
  intros Hpre Hd2 Hm. induction Hpre as [|db pre [ns Hns] _ IH].
  - simpl app. rewrite (rangeFindTable_cons _ _ _ _ Hd2).
    now rewrite rangeDbTblNames_found.
  - simpl app. rewrite (rangeFindTable_cons _ _ _ _ Hns).
    rewrite rangeDbTblNames_after_found.
    destruct (matches ns); [reflexivity|exact IH].
Qed.

(** Two databases list the table. *)
Lemma rangeFindTable_two before d1 between d2 after names1 names2 :
  Forall listingSucceeds before ->
  GetTableNames d1 = Ok names1 -> matches names1 = true ->
  Forall listingSucceeds between ->
  GetTableNames d2 = Ok names2 -> matches names2 = true ->
  forall st,
  snd (rangeFindTable deletePlan tblName
         (before ++ d1 :: between ++ d2 :: after) st)
    = Return (Ok deletePlan).
Proof.
  intros Hbefore H1 Hm1 Hbetween H2 Hm2.
  induction Hbefore as [|db pre [ns Hns] _ IH]; intros st.
  - simpl app. rewrite (rangeFindTable_cons _ _ _ _ H1).
    destruct st as [[|] dbName].
    + now rewrite rangeDbTblNames_found.
    + destruct (rangeDbTblNames_fresh d1 names1 dbName Hm1) as [E|E];
        rewrite E; [reflexivity|].
      now apply rangeFindTable_second with (names := names2).
  - simpl app. rewrite (rangeFindTable_cons _ _ _ _ Hns).
    destruct (rangeDbTblNames_cases db ns st) as [E|[st' E]]; rewrite E.
    + reflexivity.
    + apply IH.
Qed.

(** No database lists the table. *)
Lemma rangeFindTable_absent dbs st :
  Forall (fun db => exists names,
            GetTableNames db = Ok names /\ matches names = false) dbs ->
  snd (rangeFindTable deletePlan tblName dbs st) = Next st.
Proof.
  induction 1 as [|db rest [ns [Hns Hm]] _ IH].
  - reflexivity.
  - rewrite (rangeFindTable_cons _ _ _ _ Hns).
    now rewrite rangeDbTblNames_none.
Qed.

End FindTable.

Lemma listsTable_matches t db :
  listsTable t db ->
  exists names, GetTableNames db = Ok names /\
    existsb (fun n => ToLower n =? ToLower (Table_Name t)) names = true.
Proof.
  intros (names & n & Hns & Hin & Hn). exists names. split; [exact Hns|].
  apply existsb_exists. exists n. split; [exact Hin|].
  now apply String.eqb_eq.
Qed.

Lemma listsNoSuchTable_matches t db :
  listsNoSuchTable t db ->
  exists names, GetTableNames db = Ok names /\
    existsb (fun n => ToLower n =? ToLower (Table_Name t)) names = false.
Proof.
  intros (names & Hns & Hall). exists names. split; [exact Hns|].
  clear Hns. induction Hall as [|n rest Hn _ IH]; simpl.
  - reflexivity.
  - apply String.eqb_neq in Hn. now rewrite Hn, IH.
Qed.

(** C6, amended.  A DELETE on a resolved table [t] is handed back as it
    is, with no error,
    - when two databases at different places of the catalog each list a
      table named as [t], letter case apart, and the listings of the
      databases before the second of them succeed (the databases after it
      are not asked: their listings may fail);
    - when the listings of all databases succeed and none holds such a
      name. *)
Theorem ambiguous_or_absent_keeps_delete (ctx : Context) (a : Analyzer)
    (t : Table) :
  (exists before d1 between d2 after,
      AllDatabases (Analyzer_Catalog a) = before ++ d1 :: between ++ d2 :: after
      /\ Forall listingSucceeds (before ++ between)
      /\ listsTable t d1 /\ listsTable t d2)
  \/ Forall (listsNoSuchTable t) (AllDatabases (Analyzer_Catalog a)) ->
  outcome (deleteToTruncate ctx a (ResolvedTable t))
    = Ok (DeleteFrom (ResolvedTable t)).
Proof.
  intros H.
  destruct (existsb AutoIncrement (Schema t)) eqn:Hauto.
  { unfold deleteToTruncate. rewrite Hauto. reflexivity. }
  rewrite (deleteToTruncate_outcome ctx a t Hauto). cbv zeta.
  destruct H as [(before & d1 & between & d2 & after & Hdbs & Hok & H1 & H2)|H].
  - rewrite Hdbs.
    apply Forall_app in Hok as [Hb Hbt].
    apply listsTable_matches in H1 as (n1 & Hn1 & Hm1).
    apply listsTable_matches in H2 as (n2 & Hn2 & Hm2).
    now rewrite (rangeFindTable_two _ _ before d1 between d2 after n1 n2
                   Hb Hn1 Hm1 Hbt Hn2 Hm2).
  - rewrite rangeFindTable_absent; [reflexivity|].
    eapply Forall_impl; [|exact H].
    intros db Hdb. now apply listsNoSuchTable_matches.
Qed.

Section FindTableUnique.

Variable deletePlan : Node.
Variable tblName : string.

Let matches (names : list string) : bool :=
  existsb (fun n => ToLower n =? tblName) names.

(** With all listings succeeding, the search ends in a state or gives up
    with the DELETE. *)
Lemma rangeFindTable_cases dbs :
  Forall listingSucceeds dbs -> forall st,
  snd (rangeFindTable deletePlan tblName dbs st) = Return (Ok deletePlan)
  \/ exists st', snd (rangeFindTable deletePlan tblName dbs st) = Next st'.
Proof.
  induction 1 as [|db rest [ns Hns] _ IH]; intros st.
  - right. exists st. reflexivity.
  - rewrite (rangeFindTable_cons _ _ _ _ _ _ Hns).
    destruct (rangeDbTblNames_cases deletePlan tblName db ns st)
      as [E|[st' E]]; rewrite E; auto.
Qed.

(** A search that starts with the table found and ends in a state has met
    no further match and left the state alone. *)
Lemma rangeFindTable_from_found dbs :
  Forall listingSucceeds dbs -> forall dbName st',
  snd (rangeFindTable deletePlan tblName dbs (true, dbName)) = Next st' ->
  st' = (true, dbName) /\
  forall d names, In d dbs -> GetTableNames d = Ok names -> matches names = false.
Proof.
  induction 1 as [|db rest [ns Hns] _ IH]; intros dbName st' H.
  - simpl in H. inversion H. split; [reflexivity|]. intros d names [].
  - rewrite (rangeFindTable_cons _ _ _ _ _ _ Hns) in H.
    rewrite rangeDbTblNames_after_found in H. fold (matches ns) in H.
    destruct (matches ns) eqn:Em; [discriminate|].
    destruct (IH _ _ H) as [-> Hrest]. split; [reflexivity|].
    intros d names [<-|Hin] Hd.
    + rewrite Hns in Hd. inversion Hd; subst. exact Em.
    + eapply Hrest; eauto.
Qed.

(** A search that ends in a state has met at most one match; the database
    it names is the one that lists the table. *)
Lemma rangeFindTable_names dbs :
  Forall listingSucceeds dbs -> forall found dbName found' dbName',
  snd (rangeFindTable deletePlan tblName dbs (found, dbName))
    = Next (found', dbName') ->
  forall d names, In d dbs -> GetTableNames d = Ok names ->
  matches names = true ->
  found = false /\ found' = true /\ dbName' = Database_Name d.
Proof.
  induction 1 as [|db rest [ns Hns] Hrest IH];
    intros found dbName found' dbName' H d names Hin Hd Hm.
  - destruct Hin.
  - rewrite (rangeFindTable_cons _ _ _ _ _ _ Hns) in H.
    destruct (matches ns) eqn:Em.
    + destruct found.
      * rewrite rangeDbTblNames_found in H by exact Em. discriminate.
      * destruct (rangeDbTblNames_fresh deletePlan tblName db ns dbName Em)
          as [E|E]; rewrite E in H; [discriminate|].
        destruct (rangeFindTable_from_found rest Hrest _ _ H) as [Hst Hnone].
        inversion Hst; subst.
        destruct Hin as [<-|Hin]; [auto|].
        rewrite (Hnone d names Hin Hd) in Hm. discriminate.
    + rewrite rangeDbTblNames_none in H by exact Em.
      destruct Hin as [<-|Hin].
      * rewrite Hns in Hd. inversion Hd; subst.
        rewrite Em in Hm. discriminate.
      * exact (IH _ _ _ _ H d names Hin Hd Hm).
Qed.

End FindTableUnique.

(* ================================================================== *)
(** * Triggers *)

Section Triggers.

Variable deletePlan : Node.
Variables tblName dbName dbNameLower : string.

Lemma rangeTriggers_cases db triggers :
  rangeTriggers deletePlan tblName dbName dbNameLower db triggers
    = Return (Ok deletePlan)
  \/ rangeTriggers deletePlan tblName dbName dbNameLower db triggers = Next tt.
Proof.
  induction triggers as [|tr rest IH]; simpl; auto.
  destruct (negb _); auto.
  destruct (Trigger_Table tr); auto.
  destruct (triggerIsOn _ _ _ _ _ _); auto.
Qed.

Lemma rangeTriggers_blocked db triggers tr :
  In tr triggers -> TriggerEvent tr = DeleteStr ->
  blocks tblName dbName dbNameLower db tr = true ->
  rangeTriggers deletePlan tblName dbName dbNameLower db triggers
    = Return (Ok deletePlan).
Proof.
  intros Hin Hev Hb. induction triggers as [|x rest IH]; simpl.
  - destruct Hin.
  - destruct Hin as [->|Hin].
    + rewrite Hev. simpl. unfold blocks in Hb.
      destruct (Trigger_Table tr); auto. now rewrite Hb.
    + destruct (negb _); auto.
      destruct (Trigger_Table x); auto.
      destruct (triggerIsOn _ _ _ _ _ _); auto.
Qed.

Lemma rangeDbTriggers_cons db rest triggers :
  loadTriggersFromDb db = Ok triggers ->
  snd (rangeDbTriggers deletePlan tblName dbName dbNameLower (db :: rest)) =
  match rangeTriggers deletePlan tblName dbName dbNameLower db triggers with
  | Next _ => snd (rangeDbTriggers deletePlan tblName dbName dbNameLower rest)
  | Return r => Return r
  end.
Proof.
  intros H. simpl. rewrite snd_bind. unfold call. simpl. rewrite H.
  rewrite snd_bind. reflexivity.
Qed.

Lemma rangeDbTriggers_blocked before owner after tr :
  Forall triggersLoad before -> definesTrigger owner tr ->
  TriggerEvent tr = DeleteStr ->
  blocks tblName dbName dbNameLower owner tr = true ->
  snd (rangeDbTriggers deletePlan tblName dbName dbNameLower
         (before ++ owner :: after))
    = Return (Ok deletePlan).
Proof.
  intros Hbefore (ts & Hts & Hin) Hev Hb.
  induction Hbefore as [|db pre [ts' Hts'] _ IH]; simpl app.
  - rewrite (rangeDbTriggers_cons _ _ _ Hts).
    now rewrite (rangeTriggers_blocked _ _ _ Hin Hev Hb).
  - rewrite (rangeDbTriggers_cons _ _ _ Hts').
    destruct (rangeTriggers_cases db ts') as [E|E]; rewrite E; auto.
Qed.

End Triggers.

Lemma triggerTargets_blocks t d owner tr :
  triggerTargets t (Database_Name d) owner tr ->
  blocks (ToLower (Table_Name t)) (Database_Name d)
         (ToLower (Database_Name d)) owner tr = true.
Proof.
  intros (name & database & Htbl & Hname & Hdb).
  unfold blocks, triggerIsOn. rewrite Htbl.
  apply String.eqb_eq in Hname. rewrite Hname. simpl.
  destruct Hdb as [[-> Hown]|[_ Hq]].
  - apply String.eqb_eq in Hown. rewrite Hown. reflexivity.
  - apply String.eqb_eq in Hq. rewrite Hq. apply orb_true_r.
Qed.

Lemma targetUnresolvable_blocks tblName dbName dbNameLower owner tr :
  targetUnresolvable tr ->
  blocks tblName dbName dbNameLower owner tr = true.
Proof.
  unfold targetUnresolvable, blocks. intros H.
  destruct (Trigger_Table tr) as [|name database| | |]; try reflexivity.
  now destruct (H name database).
Qed.

(* ================================================================== *)
(** * Insert and update triggers do not count *)

Lemma bind_ext {R A B} (m : M R A) (f g : A -> M R B) :
  (forall a, f a = g a) -> bind m f = bind m g.
Proof.
  intros H. unfold bind. destruct m as [l [a|r]]; [|reflexivity].
  now rewrite H.
Qed.

Lemma bind_next {R A B} (l : list Event) (a : A) (f : A -> M R B) :
  bind (l, Next a) f = (l ++ fst (f a), snd (f a)).
Proof. unfold bind. destruct (f a); reflexivity. Qed.

Lemma isInsertOrUpdate_not_delete tr :
  isInsertOrUpdate tr = true -> (TriggerEvent tr =? DeleteStr) = false.
Proof.
  unfold isInsertOrUpdate. intros H.
  apply orb_true_iff in H as [H|H]; apply String.eqb_eq in H; rewrite H;
    reflexivity.
Qed.

Section DropTriggers.

Variable deletePlan : Node.
Variable tblName : string.

Let w := withoutInsertUpdateTriggers.
Let keep := fun tr => negb (isInsertOrUpdate tr).

Lemma rangeDbTblNames_drop db names : forall st,
  rangeDbTblNames deletePlan tblName (w db) names st
    = rangeDbTblNames deletePlan tblName db names st.
Proof.
  induction names as [|n rest IH]; intros st; simpl.
  - reflexivity.
  - now rewrite !IH.
Qed.

Lemma rangeFindTable_drop dbs : forall st,
  rangeFindTable deletePlan tblName (map w dbs) st
    = rangeFindTable deletePlan tblName dbs st.
Proof.
  induction dbs as [|db rest IH]; intros st; simpl.
  - reflexivity.
  - apply bind_ext. intros [names|e]; [|reflexivity].
    rewrite rangeDbTblNames_drop. apply bind_ext. intros st'. apply IH.
Qed.

Lemma rangeTriggers_drop dbName dbNameLower db triggers :
  rangeTriggers deletePlan tblName dbName dbNameLower (w db)
      (filter keep triggers)
    = rangeTriggers deletePlan tblName dbName dbNameLower db triggers.
Proof.
  induction triggers as [|tr rest IH]; simpl.
  - reflexivity.
  - unfold keep at 1. destruct (isInsertOrUpdate tr) eqn:E; simpl.
    + rewrite (isInsertOrUpdate_not_delete tr E). simpl. exact IH.
    + destruct (negb _); [exact IH|].
      destruct (Trigger_Table tr); try reflexivity.
      unfold triggerIsOn. simpl. now rewrite IH.
Qed.

Lemma rangeDbTriggers_drop dbName dbNameLower dbs :
  rangeDbTriggers deletePlan tblName dbName dbNameLower (map w dbs)
    = rangeDbTriggers deletePlan tblName dbName dbNameLower dbs.
Proof.
  induction dbs as [|db rest IH]; simpl.
  - reflexivity.
  - destruct (loadTriggersFromDb db) as [ts|e]; unfold call; simpl.
    + rewrite !bind_next. fold keep. rewrite rangeTriggers_drop, IH.
      reflexivity.
    + reflexivity.
Qed.

Lemma rangeTableNames_drop db tableName names :
  rangeTableNames (w db) tableName names = rangeTableNames db tableName names.
Proof.
  induction names as [|n rest IH]; simpl.
  - reflexivity.
  - destruct (ToLower n =? tableName); [exact IH|].
    apply bind_ext. intros [[u|]|e]; try reflexivity.
    destruct (GetForeignKeys u); [|exact IH].
    apply bind_ext. intros [fks|e]; [|reflexivity].
    apply bind_ext. intros _. exact IH.
Qed.

Lemma rangeDatabases_drop dbName tableName dbs :
  rangeDatabases dbName tableName (map w dbs)
    = rangeDatabases dbName tableName dbs.
Proof.
  induction dbs as [|db rest IH]; simpl.
  - reflexivity.
  - destruct (negb _); [exact IH|].
    apply bind_ext. intros [names|e]; [|reflexivity].
    rewrite rangeTableNames_drop. apply bind_ext. intros _. exact IH.
Qed.

End DropTriggers.

Lemma validateTruncate_drop ctx a dbName tbl :
  validateTruncate ctx (dropInsertUpdateTriggers a) dbName tbl
    = validateTruncate ctx a dbName tbl.
Proof.
  unfold validateTruncate. destruct (GetTruncatable tbl); [|reflexivity].
  unfold allDatabases, dropInsertUpdateTriggers. simpl.
  rewrite !bind_next, rangeDatabases_drop. reflexivity.
Qed.

Lemma deleteToTruncate_drop ctx a Child :
  deleteToTruncate ctx (dropInsertUpdateTriggers a) Child
    = deleteToTruncate ctx a Child.
Proof.
  unfold deleteToTruncate. destruct Child as [t| | | |]; try reflexivity.
  destruct (existsb _ _); [reflexivity|].
  f_equal. unfold allDatabases at 1 3.
  unfold dropInsertUpdateTriggers at 1. simpl AllDatabases.
  rewrite !bind_next, rangeFindTable_drop. f_equal.
  - f_equal. f_equal. apply bind_ext. intros [found dbName].
    destruct (negb found); [reflexivity|].
    unfold allDatabases, dropInsertUpdateTriggers at 1. simpl AllDatabases.
    rewrite !bind_next, rangeDbTriggers_drop, validateTruncate_drop.
    reflexivity.
  - f_equal. apply bind_ext. intros [found dbName].
    destruct (negb found); [reflexivity|].
    unfold allDatabases, dropInsertUpdateTriggers at 1. simpl AllDatabases.
    rewrite !bind_next, rangeDbTriggers_drop, validateTruncate_drop.
    reflexivity.
Qed.

(** C4, amended.  For a DELETE on a resolved table [t]:
    - if the listings of all databases succeed, [t] is listed in database
      [d], some database [owner] defines a delete trigger that is on [t]
      in [d] (qualified with the name of [d], or unqualified with [owner]
      being [d]), and the triggers of the databases before [owner] load,
      the DELETE is handed back as it is, with no error;
    - the same holds, wherever [t] is listed, when the target of the
      delete trigger is not an unresolved-table reference;
    - removing every insert and update trigger from the catalog changes
      neither the result nor the calls made. *)
Theorem delete_trigger_keeps_delete (ctx : Context) (a : Analyzer) (t : Table) :
  (forall d before owner after tr,
      Forall listingSucceeds (AllDatabases (Analyzer_Catalog a)) ->
      In d (AllDatabases (Analyzer_Catalog a)) -> listsTable t d ->
      AllDatabases (Analyzer_Catalog a) = before ++ owner :: after ->
      Forall triggersLoad before ->
      definesTrigger owner tr -> TriggerEvent tr = DeleteStr ->
      triggerTargets t (Database_Name d) owner tr ->
      outcome (deleteToTruncate ctx a (ResolvedTable t))
        = Ok (DeleteFrom (ResolvedTable t)))
  /\ (forall before owner after tr,
      Forall listingSucceeds (AllDatabases (Analyzer_Catalog a)) ->
      AllDatabases (Analyzer_Catalog a) = before ++ owner :: after ->
      Forall triggersLoad before ->
      definesTrigger owner tr -> TriggerEvent tr = DeleteStr ->
      targetUnresolvable tr ->
      outcome (deleteToTruncate ctx a (ResolvedTable t))
        = Ok (DeleteFrom (ResolvedTable t)))
  /\ deleteToTruncate ctx (dropInsertUpdateTriggers a) (ResolvedTable t)
     = deleteToTruncate ctx a (ResolvedTable t).
Proof.
  split; [|split].
  - intros d before owner after tr Hlist Hd Hlists Hdbs Hload Hdef Hev Htgt.
    destruct (existsb AutoIncrement (Schema t)) eqn:Hauto.
    { unfold deleteToTruncate. rewrite Hauto. reflexivity. }
    rewrite (deleteToTruncate_outcome ctx a t Hauto). cbv zeta.
    destruct (rangeFindTable_cases (DeleteFrom (ResolvedTable t))
                (ToLower (Table_Name t)) _ Hlist (false, ""))
      as [E|[[found dbName] E]]; rewrite E; [reflexivity|].
    destruct found; [|reflexivity].
    apply listsTable_matches in Hlists as (names & Hnames & Hm).
    destruct (rangeFindTable_names _ _ _ Hlist _ _ _ _ E d names Hd Hnames Hm)
      as (_ & _ & ->).
    rewrite Hdbs.
    rewrite (rangeDbTriggers_blocked _ _ _ _ before owner after tr
               Hload Hdef Hev (triggerTargets_blocks t d owner tr Htgt)).
    reflexivity.
  - intros before owner after tr Hlist Hdbs Hload Hdef Hev Htgt.
    destruct (existsb AutoIncrement (Schema t)) eqn:Hauto.
    { unfold deleteToTruncate. rewrite Hauto. reflexivity. }
    rewrite (deleteToTruncate_outcome ctx a t Hauto). cbv zeta.
    destruct (rangeFindTable_cases (DeleteFrom (ResolvedTable t))
                (ToLower (Table_Name t)) _ Hlist (false, ""))
      as [E|[[found dbName] E]]; rewrite E; [reflexivity|].
    destruct found; [|reflexivity].
    rewrite Hdbs.
    rewrite (rangeDbTriggers_blocked _ _ _ _ before owner after tr
               Hload Hdef Hev
               (targetUnresolvable_blocks _ _ _ owner tr Htgt)).
    reflexivity.
  - apply deleteToTruncate_drop.
Qed.

(* ================================================================== *)
(** * The scan for foreign keys *)

Section ForeignKeyScan.

Variable tableName : string.

Lemma rangeForeignKeys_clean n fks :
  Forall (fun fk => ToLower (ReferencedTable fk) <> tableName) fks ->
  rangeForeignKeys tableName n fks = Next tt.
Proof.
  induction 1 as [|fk rest Hfk _ IH]; simpl.
  - reflexivity.
  - apply String.eqb_neq in Hfk. now rewrite Hfk.
Qed.

Lemma rangeForeignKeys_hit n fks1 fk fks2 :
  Forall (fun fk => ToLower (ReferencedTable fk) <> tableName) fks1 ->
  ToLower (ReferencedTable fk) = tableName ->
  rangeForeignKeys tableName n (fks1 ++ fk :: fks2)
    = Return (false, Some (ErrTruncateReferencedFromForeignKey
                             tableName (fk_Name fk) n)).
Proof.
  intros H1 Hfk. induction H1 as [|x rest Hx _ IH]; simpl.
  - apply String.eqb_eq in Hfk. now rewrite Hfk.
  - apply String.eqb_neq in Hx. now rewrite Hx.
Qed.

(** One round of the loop over the names, on a clean entry. *)
Lemma rangeTableNames_skip db n rest :
  entryIsClean tableName db n ->
  snd (rangeTableNames db tableName (n :: rest))
    = snd (rangeTableNames db tableName rest).
Proof.
  intros Hn. simpl. destruct (ToLower n =? tableName) eqn:E.
  - reflexivity.
  - apply String.eqb_neq in E. destruct (Hn E) as (u & Hu & Hfk).
    rewrite snd_bind. unfold call. simpl. rewrite Hu.
    unfold holdsNoReference in Hfk.
    destruct (GetForeignKeys u) as [[fks|e]|]; [|contradiction|reflexivity].
    rewrite snd_bind. simpl. rewrite snd_bind. simpl.
    now rewrite rangeForeignKeys_clean.
Qed.

Lemma rangeTableNames_clean db names :
  Forall (entryIsClean tableName db) names ->
  snd (rangeTableNames db tableName names) = Next tt.
Proof.
  induction 1 as [|n rest Hn _ IH].
  - reflexivity.
  - now rewrite rangeTableNames_skip.
Qed.

Lemma rangeTableNames_hit db names1 u names2 ut fks1 fk fks2 :
  Forall (entryIsClean tableName db) names1 ->
  ToLower u <> tableName ->
  GetTableInsensitive db u = Ok (Some ut) ->
  GetForeignKeys ut = Some (Ok (fks1 ++ fk :: fks2)) ->
  Forall (fun fk => ToLower (ReferencedTable fk) <> tableName) fks1 ->
  ToLower (ReferencedTable fk) = tableName ->
  snd (rangeTableNames db tableName (names1 ++ u :: names2))
    = Return (false, Some (ErrTruncateReferencedFromForeignKey
                             tableName (fk_Name fk) u)).
Proof.
  intros H1 Hu Hut Hfks Hclean Hfk.
  induction H1 as [|n rest Hn _ IH]; simpl app.
  - simpl. apply String.eqb_neq in Hu. rewrite Hu.
    rewrite snd_bind. unfold call. simpl. rewrite Hut, Hfks.
    rewrite snd_bind. simpl. rewrite snd_bind. simpl.
    now rewrite rangeForeignKeys_hit.
  - now rewrite rangeTableNames_skip.
Qed.

Variable dbName : string.

Lemma rangeDatabases_other db rest :
  ToLower (Database_Name db) <> dbName ->
  rangeDatabases dbName tableName (db :: rest)
    = rangeDatabases dbName tableName rest.
Proof.
  intros H. simpl. apply String.eqb_neq in H. now rewrite H.
Qed.

Lemma rangeDatabases_scanned db rest names :
  ToLower (Database_Name db) = dbName ->
  GetTableNames db = Ok names ->
  snd (rangeDatabases dbName tableName (db :: rest)) =
  match snd (rangeTableNames db tableName names) with
  | Next _ => snd (rangeDatabases dbName tableName rest)
  | Return v => Return v
  end.
Proof.
  intros H Hn. simpl. apply String.eqb_eq in H. rewrite H. simpl.
  rewrite snd_bind. unfold call. simpl. rewrite Hn. now rewrite snd_bind.
Qed.

Lemma rangeDatabases_skip db rest :
  (ToLower (Database_Name db) = dbName -> othersHoldNoReference tableName db) ->
  snd (rangeDatabases dbName tableName (db :: rest))
    = snd (rangeDatabases dbName tableName rest).
Proof.
  intros H. destruct (String.eqb_spec (ToLower (Database_Name db)) dbName)
    as [E|E].
  - destruct (H E) as (names & Hn & Hclean).
    rewrite (rangeDatabases_scanned db rest names E Hn).
    now rewrite rangeTableNames_clean.
  - now rewrite rangeDatabases_other.
Qed.

Lemma rangeDatabases_clean dbs :
  scanIsClean dbName tableName dbs ->
  snd (rangeDatabases dbName tableName dbs) = Next tt.
Proof.
  induction 1 as [|db rest Hdb _ IH].
  - reflexivity.
  - now rewrite rangeDatabases_skip.
Qed.

Lemma rangeDatabases_hit before d after names1 u names2 ut fks1 fk fks2 :
  scanIsClean dbName tableName before ->
  ToLower (Database_Name d) = dbName ->
  GetTableNames d = Ok (names1 ++ u :: names2) ->
  Forall (entryIsClean tableName d) names1 ->
  ToLower u <> tableName ->
  GetTableInsensitive d u = Ok (Some ut) ->
  GetForeignKeys ut = Some (Ok (fks1 ++ fk :: fks2)) ->
  Forall (fun fk => ToLower (ReferencedTable fk) <> tableName) fks1 ->
  ToLower (ReferencedTable fk) = tableName ->
  snd (rangeDatabases dbName tableName (before ++ d :: after))
    = Return (false, Some (ErrTruncateReferencedFromForeignKey
                             tableName (fk_Name fk) u)).
Proof.
  intros Hbefore Hd Hn H1 Hu Hut Hfks Hclean Hfk.
  induction Hbefore as [|db rest Hdb _ IH]; simpl app.
  - rewrite (rangeDatabases_scanned d after _ Hd Hn).
    now rewrite (rangeTableNames_hit d names1 u names2 ut fks1 fk fks2).
  - now rewrite rangeDatabases_skip.
Qed.

End ForeignKeyScan.

(* ================================================================== *)
(** * The target table itself is passed over *)

Lemma Forall_fst_bind {R A B} (P : Event -> Prop) (m : M R A) (f : A -> M R B) :
  Forall P (fst m) -> (forall a, Forall P (fst (f a))) ->
  Forall P (fst (bind m f)).
Proof.
  intros Hm Hf. unfold bind. destruct m as [l [a|r]]; simpl in *.
  - specialize (Hf a). destruct (f a) as [l' x]. simpl in *.
    apply Forall_app. auto.
  - exact Hm.
Qed.

Lemma rangeTableNames_passes_over db tableName names :
  Forall (passesOver tableName) (fst (rangeTableNames db tableName names)).
Proof.
  induction names as [|n rest IH]; simpl.
  - constructor.
  - destruct (ToLower n =? tableName) eqn:E; [exact IH|].
    apply String.eqb_neq in E.
    apply Forall_fst_bind.
    { repeat constructor. intros m Hm. simpl in Hm. now subst m. }
    intros [[u|]|e]; try constructor.
    destruct (GetForeignKeys u); [|exact IH].
    apply Forall_fst_bind.
    { repeat constructor. intros m Hm. simpl in Hm. now subst m. }
    intros [fks|e]; [|constructor].
    apply Forall_fst_bind; [constructor|]. intros _. exact IH.
Qed.

Lemma rangeDatabases_passes_over dbName tableName dbs :
  Forall (passesOver tableName) (fst (rangeDatabases dbName tableName dbs)).
Proof.
  induction dbs as [|db rest IH]; simpl.
  - constructor.
  - destruct (negb _); [exact IH|].
    apply Forall_fst_bind.
    { repeat constructor. intros m []. }
    intros [names|e]; [|constructor].
    apply Forall_fst_bind; [apply rangeTableNames_passes_over|].
    intros _. exact IH.
Qed.

Lemma fst_run {R} (m : M R R) : fst (run m) = fst m.
Proof. destruct m as [l [r|r]]; reflexivity. Qed.

Lemma validateTruncate_passes_over ctx a dbName tbl tr :
  GetTruncatable tbl = Ok tr ->
  Forall (passesOver (ToLower (Table_Name tr)))
         (calls (validateTruncate ctx a dbName tbl)).
Proof.
  intros H. unfold calls, validateTruncate. rewrite H, fst_run.
  apply Forall_fst_bind.
  { repeat constructor. intros m []. }
  intros dbs. apply Forall_fst_bind.
  - apply rangeDatabases_passes_over.
  - intros _. constructor.
Qed.

Lemma processTruncate_Truncate_outcome ctx a db Child :
  outcome (processTruncate ctx a (Truncate db Child)) =
  match snd (outcome (validateTruncate ctx a db Child)) with
  | Some err => Err err
  | None => Ok (Truncate db Child)
  end.
Proof.
  unfold outcome. simpl.
  destruct (validateTruncate ctx a db Child) as [l [ok [e|]]]; reflexivity.
Qed.

(** C9, amended.  For a truncatable table reference:
    - validateTruncate never fetches a table listed under the name of the
      target, letter case apart, nor its foreign keys;
    - when, in every database it scans, the listing succeeds and every
      other listed name fetches a table whose foreign keys can be read and
      do not reference the target, validateTruncate answers (true, no
      error), whatever foreign keys the target holds on itself, and an
      explicit TRUNCATE is handed back with no error;
    - under the same condition on the databases scanned for the matched
      database, a DELETE that has passed the search for its table and the
      trigger check is rewritten to TRUNCATE. *)
Theorem self_reference_does_not_block (ctx : Context) (a : Analyzer)
    (dbName : string) (tbl : Node) (tr : Table) :
  GetTruncatable tbl = Ok tr ->
  (forall ev n, In ev (calls (validateTruncate ctx a dbName tbl)) ->
                fetches n (ev_lookup ev) ->
                ToLower n <> ToLower (Table_Name tr))
  /\ (scanIsClean (normalizedDbName ctx dbName) (ToLower (Table_Name tr))
                  (AllDatabases (Analyzer_Catalog a)) ->
      outcome (validateTruncate ctx a dbName tbl) = (true, None)
      /\ outcome (processTruncate ctx a (Truncate dbName tbl))
         = Ok (Truncate dbName tbl))
  /\ (forall matched,
      tbl = ResolvedTable tr ->
      existsb AutoIncrement (Schema tr) = false ->
      snd (rangeFindTable (DeleteFrom tbl) (ToLower (Table_Name tr))
             (AllDatabases (Analyzer_Catalog a)) (false, ""))
        = Next (true, matched) ->
      snd (rangeDbTriggers (DeleteFrom tbl) (ToLower (Table_Name tr)) matched
             (ToLower matched) (AllDatabases (Analyzer_Catalog a)))
        = Next tt ->
      scanIsClean (normalizedDbName ctx (ToLower matched))
                  (ToLower (Table_Name tr))
                  (AllDatabases (Analyzer_Catalog a)) ->
      outcome (deleteToTruncate ctx a tbl) = Ok (Truncate matched tbl)).
Proof.
  intros Htr. split; [|split].
  - intros ev n Hin Hf.
    pose proof (validateTruncate_passes_over ctx a dbName tbl tr Htr) as Hp.
    rewrite Forall_forall in Hp. exact (Hp ev Hin n Hf).
  - intros Hclean.
    assert (Hv : outcome (validateTruncate ctx a dbName tbl) = (true, None)).
    { rewrite (validateTruncate_outcome ctx a dbName tbl tr Htr).
      now rewrite rangeDatabases_clean. }
    split; [exact Hv|].
    rewrite processTruncate_Truncate_outcome, Hv. reflexivity.
  - intros matched -> Hauto Hfind Htrig Hclean.
    rewrite (deleteToTruncate_outcome ctx a tr Hauto). cbv zeta.
    rewrite Hfind, Htrig.
    rewrite (validateTruncate_outcome ctx a _ _ tr Htr).
    now rewrite rangeDatabases_clean.
Qed.

(* ================================================================== *)
(** * A referenced table: TRUNCATE fails, DELETE stays *)

Lemma rangeDbTriggers_cases deletePlan tblName dbName dbNameLower dbs :
  Forall triggersLoad dbs ->
  snd (rangeDbTriggers deletePlan tblName dbName dbNameLower dbs)
    = Return (Ok deletePlan)
  \/ snd (rangeDbTriggers deletePlan tblName dbName dbNameLower dbs) = Next tt.
Proof.
  induction 1 as [|db rest [ts Hts] _ IH].
  - right. reflexivity.
  - rewrite (rangeDbTriggers_cons _ _ _ _ _ _ _ Hts).
    destruct (rangeTriggers_cases deletePlan tblName dbName dbNameLower db ts)
      as [E|E]; rewrite E; auto.
Qed.

(** C2, amended.  Let [t] be a table that supports truncation, [d] a
    database and [u] a name in its listing such that [u] fetches a table
    holding a foreign key [fk] that references [t], and let this be the
    first such key in the order of the scan for the database name
    [target], which is the lower-cased name of [d]: the databases before
    [d] that the scan looks at, the names listed before [u] and the keys
    before [fk] are clean.
    - An explicit TRUNCATE of [t] whose normalized database name is
      [target] fails with [ErrTruncateReferencedFromForeignKey] carrying
      the lower-cased name of [t], the name of [fk], and [u].
    - If moreover the listings and the triggers of all databases load,
      [d] lists [t], and [target] is also what validateTruncate scans for
      when it is given the lower-cased name of [d], a DELETE on [t] is
      handed back as it is, with no error. *)
Theorem referenced_table_blocks_truncate_not_delete (ctx : Context)
    (a : Analyzer) (dbName target : string) (t : Table) (d : Database)
    (before after : list Database) (names1 names2 : list string) (u : string)
    (ut : Table) (fks1 fks2 : list ForeignKeyConstraint)
    (fk : ForeignKeyConstraint) :
  Truncateable t = true ->
  AllDatabases (Analyzer_Catalog a) = before ++ d :: after ->
  ToLower (Database_Name d) = target ->
  scanIsClean target (ToLower (Table_Name t)) before ->
  GetTableNames d = Ok (names1 ++ u :: names2) ->
  Forall (entryIsClean (ToLower (Table_Name t)) d) names1 ->
  ToLower u <> ToLower (Table_Name t) ->
  GetTableInsensitive d u = Ok (Some ut) ->
  GetForeignKeys ut = Some (Ok (fks1 ++ fk :: fks2)) ->
  Forall (fun k => ToLower (ReferencedTable k) <> ToLower (Table_Name t)) fks1 ->
  ToLower (ReferencedTable fk) = ToLower (Table_Name t) ->
  (normalizedDbName ctx dbName = target ->
   outcome (processTruncate ctx a (Truncate dbName (ResolvedTable t)))
     = Err (ErrTruncateReferencedFromForeignKey
              (ToLower (Table_Name t)) (fk_Name fk) u))
  /\ (Forall listingSucceeds (AllDatabases (Analyzer_Catalog a)) ->
      Forall triggersLoad (AllDatabases (Analyzer_Catalog a)) ->
      listsTable t d ->
      normalizedDbName ctx (ToLower (Database_Name d)) = target ->
      outcome (deleteToTruncate ctx a (ResolvedTable t))
        = Ok (DeleteFrom (ResolvedTable t))).
Proof.
  intros Htr Hdbs Htarget Hbefore Hnames Hn1 Hu Hut Hfks Hk1 Hfk.
  assert (Hgt : GetTruncatable (ResolvedTable t) = Ok t).
  { simpl. now rewrite Htr. }
  assert (Hscan : snd (rangeDatabases target (ToLower (Table_Name t))
                         (AllDatabases (Analyzer_Catalog a)))
     = Return (false, Some (ErrTruncateReferencedFromForeignKey
                              (ToLower (Table_Name t)) (fk_Name fk) u))).
  { rewrite Hdbs.
    now apply (rangeDatabases_hit _ _ before d after names1 u names2 ut
                 fks1 fk fks2). }
  split.
  - intros Hnorm. rewrite processTruncate_Truncate_outcome.
    rewrite (validateTruncate_outcome ctx a dbName _ t Hgt).
    rewrite Hnorm, Hscan. reflexivity.
  - intros Hlist Hload Hlists Hnorm.
    destruct (existsb AutoIncrement (Schema t)) eqn:Hauto.
    { unfold deleteToTruncate. rewrite Hauto. reflexivity. }
    rewrite (deleteToTruncate_outcome ctx a t Hauto). cbv zeta.
    destruct (rangeFindTable_cases (DeleteFrom (ResolvedTable t))
                (ToLower (Table_Name t)) _ Hlist (false, ""))
      as [E|[[found matched] E]]; rewrite E; [reflexivity|].
    destruct found; [|reflexivity].
    apply listsTable_matches in Hlists as (names & Hns & Hm).
    assert (Hd : In d (AllDatabases (Analyzer_Catalog a))).
    { rewrite Hdbs. apply in_or_app. right. now left. }
    destruct (rangeFindTable_names _ _ _ Hlist _ _ _ _ E d names Hd Hns Hm)
      as (_ & _ & ->).
    destruct (rangeDbTriggers_cases (DeleteFrom (ResolvedTable t))
                (ToLower (Table_Name t)) (Database_Name d)
                (ToLower (Database_Name d)) _ Hload) as [T|T];
      rewrite T; [reflexivity|].
    rewrite (validateTruncate_outcome ctx a _ _ t Hgt).
    rewrite Hnorm, Hscan. reflexivity.
Qed.

(* ================================================================== *)
(** * The rewrite *)

Lemma no_match_existsb tblName names :
  Forall (fun m => ToLower m <> tblName) names ->
  existsb (fun n => ToLower n =? tblName) names = false.
Proof.
  induction 1 as [|n rest Hn _ IH]; simpl.
  - reflexivity.
  - apply String.eqb_neq in Hn. now rewrite Hn, IH.
Qed.

Lemma rangeDbTblNames_once deletePlan tblName db names1 n names2 dbName :
  ToLower n = tblName ->
  Forall (fun m => ToLower m <> tblName) (names1 ++ names2) ->
  rangeDbTblNames deletePlan tblName db (names1 ++ n :: names2) (false, dbName)
    = Next (true, Database_Name db).
Proof.
  intros Hn Hall. apply Forall_app in Hall as [H1 H2].
  induction H1 as [|m rest Hm _ IH]; simpl.
  - apply String.eqb_eq in Hn. rewrite Hn. simpl.
    apply rangeDbTblNames_none. now apply no_match_existsb.
  - apply String.eqb_neq in Hm. now rewrite Hm.
Qed.

Lemma rangeFindTable_once deletePlan t before d after :
  Forall (listsNoSuchTable t) (before ++ after) -> listsOnce t d ->
  forall dbName,
  snd (rangeFindTable deletePlan (ToLower (Table_Name t))
         (before ++ d :: after) (false, dbName))
    = Next (true, Database_Name d).
Proof.
  intros Hall (names1 & n & names2 & Hns & Hn & Hrest).
  apply Forall_app in Hall as [Hb Ha].
  induction Hb as [|db rest Hdb _ IH]; intros dbName; simpl app.
  - rewrite (rangeFindTable_cons _ _ _ _ _ _ Hns).
    rewrite (rangeDbTblNames_once _ _ _ _ _ _ _ Hn Hrest).
    apply rangeFindTable_absent.
    eapply Forall_impl; [|exact Ha].
    intros db Hdb. now apply listsNoSuchTable_matches.
  - apply listsNoSuchTable_matches in Hdb as (ns & Hdbns & Hm).
    rewrite (rangeFindTable_cons _ _ _ _ _ _ Hdbns).
    rewrite rangeDbTblNames_none by exact Hm. apply IH.
Qed.

Lemma rangeTriggers_pass deletePlan t dbName db triggers :
  Forall (fun tr =>
            TriggerEvent tr = DeleteStr ->
            exists name database,
              Trigger_Table tr = UnresolvedTable name database /\
              (ToLower name <> ToLower (Table_Name t) \/
               (~ (database = "" /\ Database_Name db = dbName) /\
                ToLower database <> ToLower dbName)))
         triggers ->
  rangeTriggers deletePlan (ToLower (Table_Name t)) dbName (ToLower dbName)
    db triggers = Next tt.
Proof.
  induction 1 as [|tr rest Htr _ IH]; simpl.
  - reflexivity.
  - destruct (String.eqb_spec (TriggerEvent tr) DeleteStr) as [E|E]; simpl;
      [|exact IH].
    destruct (Htr E) as (name & database & -> & Hnot).
    replace (triggerIsOn (ToLower (Table_Name t)) dbName (ToLower dbName)
               db name database) with false; [exact IH|].
    symmetry. unfold triggerIsOn.
    destruct Hnot as [Hname|[Hunq Hq]].
    + apply String.eqb_neq in Hname. now rewrite Hname.
    + apply andb_false_iff. right. apply orb_false_iff. split.
      * apply andb_false_iff.
        destruct (String.eqb_spec database "") as [Ed|Ed]; [|now left].
        right. apply String.eqb_neq. intros Eo. apply Hunq. now split.
      * now apply String.eqb_neq.
Qed.

Lemma rangeDbTriggers_pass deletePlan t dbName dbs :
  Forall (noDeleteTriggerOn t dbName) dbs ->
  snd (rangeDbTriggers deletePlan (ToLower (Table_Name t)) dbName
         (ToLower dbName) dbs) = Next tt.
Proof.
  induction 1 as [|db rest (ts & Hts & Hclear) _ IH].
  - reflexivity.
  - rewrite (rangeDbTriggers_cons _ _ _ _ _ _ _ Hts).
    now rewrite (rangeTriggers_pass _ _ _ _ _ Hclear).
Qed.

(** C1, amended.  Let [t] be a resolved table with no auto-increment column
    that supports truncation.  Let the catalog be such that the listings
    of all databases succeed and hold the name of [t], letter case apart,
    exactly once, in database [d]; the triggers of all databases load and
    every delete trigger has an unresolved-table reference as its target,
    which is not on [t] in [d]; and in every database that validateTruncate
    scans when it is given the lower-cased name of [d], every listed table
    other than [t] can be fetched, its foreign keys can be read, and none
    references [t].  Then processTruncate hands back, with no error, a
    Truncate node that carries the name of [d] and the same resolved
    table. *)
Theorem delete_rewritten_to_truncate (ctx : Context) (a : Analyzer) (t : Table)
    (before after : list Database) (d : Database) :
  ~ hasAutoIncrement t ->
  Truncateable t = true ->
  AllDatabases (Analyzer_Catalog a) = before ++ d :: after ->
  Forall (listsNoSuchTable t) (before ++ after) ->
  listsOnce t d ->
  Forall (noDeleteTriggerOn t (Database_Name d))
         (AllDatabases (Analyzer_Catalog a)) ->
  scanIsClean (normalizedDbName ctx (ToLower (Database_Name d)))
              (ToLower (Table_Name t))
              (AllDatabases (Analyzer_Catalog a)) ->
  outcome (processTruncate ctx a (DeleteFrom (ResolvedTable t)))
    = Ok (Truncate (Database_Name d) (ResolvedTable t)).
Proof.
  intros Hauto Htr Hdbs Hnone Honce Htrig Hclean.
  assert (Hex : existsb AutoIncrement (Schema t) = false).
  { destruct (existsb AutoIncrement (Schema t)) eqn:E; [|reflexivity].
    elim Hauto. now apply hasAutoIncrement_existsb. }
  assert (Hgt : GetTruncatable (ResolvedTable t) = Ok t).
  { simpl. now rewrite Htr. }
  change (processTruncate ctx a (DeleteFrom (ResolvedTable t)))
    with (deleteToTruncate ctx a (ResolvedTable t)).
  rewrite (deleteToTruncate_outcome ctx a t Hex). cbv zeta.
  rewrite Hdbs at 1.
  rewrite (rangeFindTable_once _ t before d after Hnone Honce).
  rewrite (rangeDbTriggers_pass _ t _ _ Htrig).
  rewrite (validateTruncate_outcome ctx a _ _ t Hgt).
  now rewrite rangeDatabases_clean.
Qed.

(* ================================================================== *)
(** * More on Walk, Inspect and WalkWithNode *)

Lemma Expression_induction (P : Expression -> Prop) :
  (forall label children, Forall P children -> P (Expr label children)) ->
  forall e, P e.
Proof.
  intros H. fix IH 1. intros [label children]. apply H.
  induction children as [|c rest IHrest]; constructor.
  - apply IH.
  - exact IHrest.
Qed.

Lemma preorder_eq (e : Expression) :
  preorder e = e :: flat_map preorder (Children e).
Proof. destruct e; reflexivity. Qed.

Lemma visited_app {V} (l1 l2 : list (VisitCall V)) :
  visited (l1 ++ l2) = visited l1 ++ visited l2.
Proof. unfold visited. apply flat_map_app. Qed.

Lemma sentinels_app {V} (l1 l2 : list (VisitCall V)) :
  sentinels (l1 ++ l2) = sentinels l1 + sentinels l2.
Proof. unfold sentinels. now rewrite filter_app, length_app. Qed.

Lemma visited_cons_some {V} (v : V) x (l : list (VisitCall V)) :
  visited ((v, Some x) :: l) = x :: visited l.
Proof. reflexivity. Qed.

Lemma visited_snoc_none {V} (v : V) (l : list (VisitCall V)) :
  visited (l ++ [(v, None)]) = visited l.
Proof. rewrite visited_app. unfold visited at 2. simpl. apply app_nil_r. Qed.

Lemma sentinels_cons_some {V} (v : V) x (l : list (VisitCall V)) :
  sentinels ((v, Some x) :: l) = sentinels l.
Proof. reflexivity. Qed.

Lemma sentinels_snoc_none {V} (v : V) (l : list (VisitCall V)) :
  sentinels (l ++ [(v, None)]) = S (sentinels l).
Proof. rewrite sentinels_app. unfold sentinels at 2. simpl. lia. Qed.

Section WalkerMore.

Variables (St V : Type).
Variable Visit : V -> option Expression -> St -> St * option V.

(** X1.  Walk stays inside the tree it is given: every expression it
    passes to Visit, with whatever visitor and in whatever state, is the
    root or one of its descendants. *)
Theorem Walk_stays_inside_tree (e : Expression) : forall (v : V) (s : St) x,
  In x (visited (snd (Walk Visit v e s))) -> In x (preorder e).
Proof.
  induction e as [label children IH] using Expression_induction.
  intros v s x. rewrite Walk_eq. simpl Children.
  destruct (Visit v (Some (Expr label children)) s) as [s1 [w|]].
  - assert (Hc : forall cs, Forall
               (fun c => forall v s x,
                  In x (visited (snd (Walk Visit v c s))) -> In x (preorder c)) cs ->
             forall s0 y,
               In y (visited (snd (WalkChildren Visit w cs s0))) ->
               In y (flat_map preorder cs)).
    { induction 1 as [|c rest Hc _ IHrest]; intros s0 y; simpl.
      - intros [].
      - destruct (Walk Visit w c s0) as [sa ca] eqn:Ea.
        destruct (WalkChildren Visit w rest sa) as [sb cb] eqn:Eb.
        simpl. rewrite visited_app. intros Hin.
        apply in_or_app. apply in_app_or in Hin as [Hin|Hin].
        + left. apply (Hc w s0). now rewrite Ea.
        + right. apply (IHrest sa). now rewrite Eb. }
    specialize (Hc children IH s1).
    destruct (WalkChildren Visit w children s1) as [s2 calls]. simpl.
    rewrite visited_app. simpl.
    intros [<-|Hin]; [now left|]. right.
    rewrite app_nil_r in Hin. now apply Hc.
  - simpl. intros [<-|[]]. now left.
Qed.

End WalkerMore.

Lemma inspector_Visit_true {St} (f : inspector St) arg s :
  snd (f arg s) = true ->
  inspector_Visit f arg s = (fst (f arg s), Some f).
Proof.
  unfold inspector_Visit. destruct (f arg s) as [s' b]. simpl.
  now intros ->.
Qed.

Lemma inspector_Visit_false {St} (f : inspector St) arg s :
  snd (f arg s) = false ->
  inspector_Visit f arg s = (fst (f arg s), None).
Proof.
  unfold inspector_Visit. destruct (f arg s) as [s' b]. simpl.
  now intros ->.
Qed.

(** When the function answers [true] on every expression, in every
    state, Inspect calls it on every expression of the tree, once each, in
    depth-first order with parents first, and calls it with [nil] once
    for every expression of the tree. *)
Theorem Inspect_visits_every_node {St} (f : inspector St) :
  (forall x s, snd (f (Some x) s) = true) ->
  forall e s,
    visited (snd (Inspect e f s)) = preorder e
    /\ sentinels (snd (Inspect e f s)) = length (preorder e).
Proof.
  intros Htrue. unfold Inspect.
  induction e as [label children IH] using Expression_induction.
  intros s. rewrite Walk_eq, preorder_eq. simpl Children.
  rewrite (inspector_Visit_true f _ s (Htrue _ s)).
  assert (Hc : forall s0,
             visited (snd (WalkChildren inspector_Visit f children s0))
               = flat_map preorder children
             /\ sentinels (snd (WalkChildren inspector_Visit f children s0))
               = length (flat_map preorder children)).
  { induction IH as [|c rest Hc _ IHrest]; intros s0; simpl.
    - split; reflexivity.
    - destruct (Hc s0) as [Hv Hs].
      destruct (Walk inspector_Visit f c s0) as [sa ca].
      destruct (IHrest sa) as [Hv' Hs'].
      destruct (WalkChildren inspector_Visit f rest sa) as [sb cb].
      simpl in *. rewrite visited_app, sentinels_app, length_app.
      now rewrite Hv, Hv', Hs, Hs'. }
  destruct (Hc (fst (f (Some (Expr label children)) s))) as [Hv Hs].
  destruct (WalkChildren inspector_Visit f children _) as [s2 calls].
  simpl in *. split.
  - now rewrite visited_cons_some, visited_snoc_none, Hv.
  - now rewrite sentinels_cons_some, sentinels_snoc_none, Hs.
Qed.

Section NodeWalkerFacts.

Variables (St V : Type).
Variable NVisit : V -> option Node -> option Expression -> St -> St * option V.

Lemma WalkWithNode_range_eq (w : V) (n : option Node) (cs : list Expression) :
  forall s,
  (fix range (cs : list Expression) (s : St) : St * list (NodeVisitCall V) :=
     match cs with
     | [] => (s, [])
     | child :: rest =>
         let '(sa, ca) := WalkWithNode NVisit w n child s in
         let '(sb, cb) := range rest sa in
         (sb, ca ++ cb)
     end) cs s = WalkWithNodeChildren NVisit w n cs s.
Proof.
  induction cs as [|c cs IH]; intros s; simpl.
  - reflexivity.
  - destruct (WalkWithNode NVisit w n c s) as [sa ca]. rewrite IH.
    reflexivity.
Qed.

Lemma WalkWithNode_eq (v : V) (n : option Node) (e : Expression) (s : St) :
  WalkWithNode NVisit v n e s =
  match NVisit v n (Some e) s with
  | (s1, None) => (s1, [(v, n, Some e)])
  | (s1, Some w) =>
      let '(s2, calls) := WalkWithNodeChildren NVisit w n (Children e) s1 in
      (fst (NVisit w None None s2), (v, n, Some e) :: calls ++ [(w, None, None)])
  end.
Proof.
  destruct e as [l cs]. simpl.
  destruct (NVisit v n (Some (Expr l cs)) s) as [s1 [w|]]; [|reflexivity].
  rewrite WalkWithNode_range_eq. reflexivity.
Qed.

(** X3.  WalkWithNode is Walk with the node fixed: it ends in the same
    state as Walk run with the visitor that passes the node along with
    every expression and [nil] along with [nil], and it makes the same
    calls in the same order.  So the node given at the start goes with
    every expression visited, and no other node ever does. *)
Theorem WalkWithNode_is_Walk_with_the_node_fixed (n : option Node)
    (e : Expression) : forall (v : V) (s : St),
  WalkWithNode NVisit v n e s
    = (fst (Walk (withNode NVisit n) v e s),
       map (tagWithNode n) (snd (Walk (withNode NVisit n) v e s))).
Proof.
  induction e as [label children IH] using Expression_induction.
  intros v s. rewrite WalkWithNode_eq, Walk_eq. simpl Children.
  change (withNode NVisit n v (Some (Expr label children)) s)
    with (NVisit v n (Some (Expr label children)) s).
  destruct (NVisit v n (Some (Expr label children)) s) as [s1 [w|]];
    [|reflexivity].
  assert (Hc : forall s0,
             WalkWithNodeChildren NVisit w n children s0
               = (fst (WalkChildren (withNode NVisit n) w children s0),
                  map (tagWithNode n)
                      (snd (WalkChildren (withNode NVisit n) w children s0)))).
  { induction IH as [|c rest Hc _ IHrest]; intros s0; simpl.
    - reflexivity.
    - rewrite (Hc w s0).
      destruct (Walk (withNode NVisit n) w c s0) as [sa ca]. simpl.
      rewrite (IHrest sa).
      destruct (WalkChildren (withNode NVisit n) w rest sa) as [sb cb].
      simpl. now rewrite map_app. }
  rewrite (Hc s1).
  destruct (WalkChildren (withNode NVisit n) w children s1) as [s2 calls].
  simpl. now rewrite map_app.
Qed.

End NodeWalkerFacts.

(* ================================================================== *)
(** * Reading the loops backwards *)

Lemma existsb_no_match tblName names :
  existsb (fun n => ToLower n =? tblName) names = false ->
  Forall (fun m => ToLower m <> tblName) names.
Proof.
  induction names as [|n rest IH]; simpl; intros H.
  - constructor.
  - apply orb_false_iff in H as [Hn Hrest].
    constructor; [now apply String.eqb_neq|auto].
Qed.

Section FindTableBack.

Variable deletePlan : Node.
Variable t : Table.

Let tblName := ToLower (Table_Name t).

Lemma rangeDbTblNames_Return db names st r :
  rangeDbTblNames deletePlan tblName db names st = Return r ->
  r = Ok deletePlan.
Proof.
  destruct (rangeDbTblNames_cases deletePlan tblName db names st)
    as [E|[st' E]]; rewrite E; intros H; now inversion H.
Qed.

Lemma rangeDbTblNames_Next db names : forall found dbName found' dbName',
  rangeDbTblNames deletePlan tblName db names (found, dbName)
    = Next (found', dbName') ->
  (found' = found /\ dbName' = dbName /\
   Forall (fun m => ToLower m <> tblName) names)
  \/ (found = false /\ found' = true /\ dbName' = Database_Name db /\
      exists names1 n names2,
        names = names1 ++ n :: names2 /\ ToLower n = tblName /\
        Forall (fun m => ToLower m <> tblName) (names1 ++ names2)).
Proof.
  induction names as [|x rest IH]; intros found dbName found' dbName' H;
    simpl in H.
  - inversion H. left. repeat split. constructor.
  - destruct (String.eqb_spec (ToLower x) tblName) as [Ex|Ex].
    + destruct found; simpl in H; [discriminate|].
      rewrite rangeDbTblNames_after_found in H.
      destruct (existsb _ rest) eqn:Em; [discriminate|].
      inversion H; subst. right. repeat split.
      exists [], x, rest. repeat split; [exact Ex|].
      now apply existsb_no_match.
    + destruct (IH _ _ _ _ H) as [(-> & -> & Hall)|(-> & -> & -> & Hex)].
      * left. repeat split. now constructor.
      * right. repeat split.
        destruct Hex as (n1 & n & n2 & -> & Hn & Hall).
        exists (x :: n1), n, n2. repeat split; [exact Hn|].
        simpl. now constructor.
Qed.

(** A search that ends in a state: either it met no match, or it started
    with the table not found and met exactly one. *)
Lemma rangeFindTable_Next dbs : forall found dbName found' dbName',
  snd (rangeFindTable deletePlan tblName dbs (found, dbName))
    = Next (found', dbName') ->
  (found' = found /\ dbName' = dbName /\ Forall (listsNoSuchTable t) dbs)
  \/ (found = false /\ found' = true /\
      exists before d after,
        dbs = before ++ d :: after /\
        Forall (listsNoSuchTable t) (before ++ after) /\
        listsOnce t d /\ dbName' = Database_Name d).
Proof.
  induction dbs as [|db rest IH]; intros found dbName found' dbName' H.
  - simpl in H. inversion H. left. repeat split. constructor.
  - destruct (GetTableNames db) as [ns|e] eqn:Ens.
    2:{ rewrite (rangeFindTable_failed _ _ _ _ e _ Ens) in H. discriminate. }
    rewrite (rangeFindTable_cons _ _ _ _ _ _ Ens) in H.
    destruct (rangeDbTblNames deletePlan tblName db ns (found, dbName))
      as [[f1 n1]|r] eqn:Einner; [|discriminate].
    destruct (rangeDbTblNames_Next _ _ _ _ _ _ Einner)
      as [(-> & -> & Hall)|(-> & -> & -> & n1' & x & n2' & -> & Hx & Hall)].
    + assert (Hdb : listsNoSuchTable t db) by (exists ns; auto).
      destruct (IH _ _ _ _ H)
        as [(-> & -> & Hrest)|(-> & -> & before & d & after & -> & Hr & Ho & ->)].
      * left. repeat split. now constructor.
      * right. repeat split. exists (db :: before), d, after.
        repeat split; [|exact Ho]. simpl. now constructor.
    + destruct (IH _ _ _ _ H)
        as [(-> & -> & Hrest)|(Hf & _)]; [|discriminate].
      right. repeat split. exists [], db, rest. repeat split; [exact Hrest|].
      exists n1', x, n2'. auto.
Qed.

(** A search that gives up: with the DELETE, or with the error of a failed
    listing. *)
Lemma rangeFindTable_Return dbs : forall st r,
  snd (rangeFindTable deletePlan tblName dbs st) = Return r ->
  r = Ok deletePlan
  \/ exists e d, r = Err e /\ In d dbs /\ GetTableNames d = Err e.
Proof.
  induction dbs as [|db rest IH]; intros st r H.
  - discriminate.
  - destruct (GetTableNames db) as [ns|e] eqn:Ens.
    + rewrite (rangeFindTable_cons _ _ _ _ _ _ Ens) in H.
      destruct (rangeDbTblNames deletePlan tblName db ns st)
        as [st'|r'] eqn:Einner.
      * destruct (IH _ _ H) as [->|(e & d & -> & Hd & He)]; [now left|].
        right. exists e, d. simpl. auto.
      * inversion H; subst. left.
        exact (rangeDbTblNames_Return _ _ _ _ Einner).
    + rewrite (rangeFindTable_failed _ _ _ _ e _ Ens) in H.
      inversion H; subst. right. exists e, db. simpl. auto.
Qed.

Variable dbName : string.

Lemma triggerIsOn_false db name database :
  triggerIsOn tblName dbName (ToLower dbName) db name database = false ->
  ToLower name <> ToLower (Table_Name t) \/
  (~ (database = "" /\ Database_Name db = dbName) /\
   ToLower database <> ToLower dbName).
Proof.
  unfold triggerIsOn. intros H.
  apply andb_false_iff in H as [H|H].
  - left. now apply String.eqb_neq.
  - right. apply orb_false_iff in H as [H1 H2]. split.
    + intros [-> Hown]. apply String.eqb_eq in Hown.
      rewrite Hown in H1. discriminate.
    + now apply String.eqb_neq.
Qed.

Lemma rangeTriggers_Return db triggers r :
  rangeTriggers deletePlan tblName dbName (ToLower dbName) db triggers
    = Return r ->
  r = Ok deletePlan.
Proof.
  destruct (rangeTriggers_cases deletePlan tblName dbName (ToLower dbName)
              db triggers) as [E|E]; rewrite E; intros H; now inversion H.
Qed.

Lemma rangeTriggers_Next db triggers :
  rangeTriggers deletePlan tblName dbName (ToLower dbName) db triggers
    = Next tt ->
  Forall (fun tr =>
            TriggerEvent tr = DeleteStr ->
            exists name database,
              Trigger_Table tr = UnresolvedTable name database /\
              (ToLower name <> ToLower (Table_Name t) \/
               (~ (database = "" /\ Database_Name db = dbName) /\
                ToLower database <> ToLower dbName)))
         triggers.
Proof.
  induction triggers as [|tr rest IH]; simpl; intros H.
  - constructor.
  - destruct (String.eqb_spec (TriggerEvent tr) DeleteStr) as [E|E];
      simpl in H.
    + destruct (Trigger_Table tr) as [x|name database|c|x c|k cs] eqn:Et;
        try discriminate.
      destruct (triggerIsOn tblName dbName (ToLower dbName) db name database)
        eqn:Eon; [discriminate|].
      constructor; [|auto].
      intros _. exists name, database. split; [exact Et|].
      now apply triggerIsOn_false.
    + constructor; [|auto]. intros E'. now elim E.
Qed.

Lemma rangeDbTriggers_failed db rest e :
  loadTriggersFromDb db = Err e ->
  snd (rangeDbTriggers deletePlan tblName dbName (ToLower dbName) (db :: rest))
    = Return (Err e).
Proof.
  intros H. simpl. rewrite snd_bind. unfold call. simpl. now rewrite H.
Qed.

Lemma rangeDbTriggers_Next dbs :
  snd (rangeDbTriggers deletePlan tblName dbName (ToLower dbName) dbs)
    = Next tt ->
  Forall (noDeleteTriggerOn t dbName) dbs.
Proof.
  induction dbs as [|db rest IH]; intros H.
  - constructor.
  - destruct (loadTriggersFromDb db) as [ts|e] eqn:Ets.
    2:{ rewrite (rangeDbTriggers_failed _ _ e Ets) in H. discriminate. }
    rewrite (rangeDbTriggers_cons _ _ _ _ _ _ _ Ets) in H.
    destruct (rangeTriggers deletePlan tblName dbName (ToLower dbName) db ts)
      as [[]|r] eqn:Einner; [|discriminate].
    constructor; [|auto].
    exists ts. split; [exact Ets|]. now apply rangeTriggers_Next.
Qed.

Lemma rangeDbTriggers_Return dbs r :
  snd (rangeDbTriggers deletePlan tblName dbName (ToLower dbName) dbs)
    = Return r ->
  r = Ok deletePlan
  \/ exists e d, r = Err e /\ In d dbs /\ loadTriggersFromDb d = Err e.
Proof.
  induction dbs as [|db rest IH]; intros H.
  - discriminate.
  - destruct (loadTriggersFromDb db) as [ts|e] eqn:Ets.
    + rewrite (rangeDbTriggers_cons _ _ _ _ _ _ _ Ets) in H.
      destruct (rangeTriggers deletePlan tblName dbName (ToLower dbName) db ts)
        as [[]|r'] eqn:Einner.
      * destruct (IH H) as [->|(e & d & -> & Hd & He)]; [now left|].
        right. exists e, d. simpl. auto.
      * inversion H; subst. left. exact (rangeTriggers_Return _ _ _ Einner).
    + rewrite (rangeDbTriggers_failed _ _ e Ets) in H.
      inversion H; subst. right. exists e, db. simpl. auto.
Qed.

End FindTableBack.

Section ForeignKeyScanBack.

Variable tableName : string.

Lemma rangeForeignKeys_Next n fks :
  rangeForeignKeys tableName n fks = Next tt ->
  Forall (fun fk => ToLower (ReferencedTable fk) <> tableName) fks.
Proof.
  induction fks as [|fk rest IH]; simpl; intros H.
  - constructor.
  - destruct (String.eqb_spec (ToLower (ReferencedTable fk)) tableName);
      [discriminate|]. constructor; auto.
Qed.

Lemma rangeForeignKeys_Return n fks v :
  rangeForeignKeys tableName n fks = Return v ->
  exists fk, In fk fks /\ ToLower (ReferencedTable fk) = tableName /\
             v = (false, Some (ErrTruncateReferencedFromForeignKey
                                 tableName (fk_Name fk) n)).
Proof.
  induction fks as [|fk rest IH]; simpl; intros H.
  - discriminate.
  - destruct (String.eqb_spec (ToLower (ReferencedTable fk)) tableName)
      as [E|E].
    + inversion H. exists fk. auto.
    + destruct (IH H) as (fk' & Hin & Hfk). exists fk'. auto.
Qed.

(** One round of the loop over the names. *)
Lemma rangeTableNames_step db n rest :
  snd (rangeTableNames db tableName (n :: rest)) =
  if ToLower n =? tableName then snd (rangeTableNames db tableName rest)
  else
    match GetTableInsensitive db n with
    | Err e => Return (true, Some e)
    | Ok None => Return (true, Some (ErrTableNotFound n))
    | Ok (Some u) =>
        match GetForeignKeys u with
        | None => snd (rangeTableNames db tableName rest)
        | Some (Err e) => Return (true, Some e)
        | Some (Ok fks) =>
            match rangeForeignKeys tableName n fks with
            | Next _ => snd (rangeTableNames db tableName rest)
            | Return v => Return v
            end
        end
    end.
Proof.
  simpl. destruct (ToLower n =? tableName); [reflexivity|].
  rewrite snd_bind. unfold call. simpl.
  destruct (GetTableInsensitive db n) as [[u|]|e]; try reflexivity.
  destruct (GetForeignKeys u) as [[fks|e]|]; try reflexivity.
  rewrite snd_bind. simpl. rewrite snd_bind. reflexivity.
Qed.

Lemma rangeTableNames_Next db names :
  snd (rangeTableNames db tableName names) = Next tt ->
  Forall (entryIsClean tableName db) names.
Proof.
  induction names as [|n rest IH]; intros H.
  - constructor.
  - rewrite rangeTableNames_step in H.
    destruct (String.eqb_spec (ToLower n) tableName) as [E|E].
    + constructor; [|auto]. intros Hn. now elim Hn.
    + destruct (GetTableInsensitive db n) as [[u|]|e] eqn:Eu;
        try discriminate.
      destruct (GetForeignKeys u) as [[fks|e]|] eqn:Efk; try discriminate.
      * destruct (rangeForeignKeys tableName n fks) as [[]|v] eqn:Er;
          [|discriminate].
        constructor; [|auto]. intros _. exists u. split; [exact Eu|].
        unfold holdsNoReference. rewrite Efk.
        now apply (rangeForeignKeys_Next n).
      * constructor; [|auto]. intros _. exists u. split; [exact Eu|].
        unfold holdsNoReference. now rewrite Efk.
Qed.

Lemma rangeTableNames_Return db names v :
  snd (rangeTableNames db tableName names) = Return v ->
  exists n, In n names /\ scanStopsOn tableName db n v.
Proof.
  induction names as [|n rest IH]; intros H.
  - discriminate.
  - rewrite rangeTableNames_step in H.
    assert (Hrest : snd (rangeTableNames db tableName rest) = Return v ->
                    exists m, In m (n :: rest) /\ scanStopsOn tableName db m v).
    { intros Hr. destruct (IH Hr) as (m & Hm & Hs). exists m. simpl. auto. }
    destruct (String.eqb_spec (ToLower n) tableName) as [E|E]; [auto|].
    unfold scanStopsOn.
    destruct (GetTableInsensitive db n) as [[u|]|e] eqn:Eu.
    + destruct (GetForeignKeys u) as [[fks|e]|] eqn:Efk.
      * destruct (rangeForeignKeys tableName n fks) as [[]|v'] eqn:Er;
          [auto|].
        inversion H; subst. exists n. split; [now left|].
        split; [exact E|]. rewrite Eu, Efk.
        now apply rangeForeignKeys_Return.
      * inversion H; subst. exists n. split; [now left|].
        split; [exact E|]. now rewrite Eu, Efk.
      * auto.
    + inversion H; subst. exists n. split; [now left|].
      split; [exact E|]. now rewrite Eu.
    + inversion H; subst. exists n. split; [now left|].
      split; [exact E|]. now rewrite Eu.
Qed.

Variable dbName : string.

Lemma rangeDatabases_failed db rest e :
  ToLower (Database_Name db) = dbName ->
  GetTableNames db = Err e ->
  snd (rangeDatabases dbName tableName (db :: rest)) = Return (true, Some e).
Proof.
  intros H Hn. simpl. apply String.eqb_eq in H. rewrite H. simpl.
  rewrite snd_bind. unfold call. simpl. now rewrite Hn.
Qed.

Lemma rangeDatabases_Next dbs :
  snd (rangeDatabases dbName tableName dbs) = Next tt ->
  scanIsClean dbName tableName dbs.
Proof.
  unfold scanIsClean. induction dbs as [|db rest IH]; intros H.
  - constructor.
  - destruct (String.eqb_spec (ToLower (Database_Name db)) dbName) as [E|E].
    + destruct (GetTableNames db) as [names|e] eqn:En.
      2:{ rewrite (rangeDatabases_failed db rest e E En) in H. discriminate. }
      rewrite (rangeDatabases_scanned _ _ db rest names E En) in H.
      destruct (snd (rangeTableNames db tableName names)) as [[]|v] eqn:Et;
        [|discriminate].
      constructor; [|auto]. intros _. exists names. split; [exact En|].
      now apply rangeTableNames_Next.
    + rewrite (rangeDatabases_other _ _ db rest E) in H.
      constructor; [|auto]. intros E'. now elim E.
Qed.

Lemma rangeDatabases_Return dbs v :
  snd (rangeDatabases dbName tableName dbs) = Return v ->
  exists d, In d dbs /\ ToLower (Database_Name d) = dbName /\
    ((exists e, GetTableNames d = Err e /\ v = (true, Some e))
     \/ (exists names n, GetTableNames d = Ok names /\ In n names /\
                         scanStopsOn tableName d n v)).
Proof.
  induction dbs as [|db rest IH]; intros H.
  - discriminate.
  - assert (Hrest : snd (rangeDatabases dbName tableName rest) = Return v ->
             exists d, In d (db :: rest) /\ ToLower (Database_Name d) = dbName /\
               ((exists e, GetTableNames d = Err e /\ v = (true, Some e))
                \/ (exists names n, GetTableNames d = Ok names /\ In n names /\
                                    scanStopsOn tableName d n v))).
    { intros Hr. destruct (IH Hr) as (d & Hd & Hrem). exists d. simpl. auto. }
    destruct (String.eqb_spec (ToLower (Database_Name db)) dbName) as [E|E].
    + destruct (GetTableNames db) as [names|e] eqn:En.
      * rewrite (rangeDatabases_scanned _ _ db rest names E En) in H.
        destruct (snd (rangeTableNames db tableName names)) as [[]|v'] eqn:Et;
          [auto|].
        injection H as ->.
        destruct (rangeTableNames_Return _ _ _ Et) as (n & Hn & Hs).
        exists db. split; [now left|]. split; [exact E|].
        right. exists names, n. auto.
      * rewrite (rangeDatabases_failed db rest e E En) in H.
        injection H as <-. exists db. split; [now left|].
        split; [exact E|]. left. exists e. auto.
    + rewrite (rangeDatabases_other _ _ db rest E) in H. auto.
Qed.

End ForeignKeyScanBack.

(* ================================================================== *)
(** * What the answers of validateTruncate mean *)

Lemma scanStopsOn_error tableName d n v :
  scanStopsOn tableName d n v -> exists e, snd v = Some e.
Proof.
  intros [_ H].
  destruct (GetTableInsensitive d n) as [[u|]|e].
  - destruct (GetForeignKeys u) as [[fks|e]|].
    + destruct H as (fk & _ & _ & ->). simpl. eauto.
    + subst v. simpl. eauto.
    + contradiction.
  - subst v. simpl. eauto.
  - subst v. simpl. eauto.
Qed.

Lemma rangeDatabases_Return_error dbName tableName dbs v :
  snd (rangeDatabases dbName tableName dbs) = Return v ->
  exists e, snd v = Some e.
Proof.
  intros H.
  destruct (rangeDatabases_Return _ _ _ _ H)
    as (d & _ & _ & [(e & _ & ->)|(names & n & _ & _ & Hs)]).
  - simpl. eauto.
  - exact (scanStopsOn_error _ _ _ _ Hs).
Qed.

(** X4.  For a truncatable reference, validateTruncate answers (true, no
    error) exactly when, in every database bearing the normalized target
    name, the listing succeeds and every listed name other than the
    target's fetches a table whose foreign keys can be read and do not
    reference the target. *)
Theorem validateTruncate_passes_iff_scan_clean (ctx : Context) (a : Analyzer)
    (dbName : string) (tbl : Node) (tr : Table) :
  GetTruncatable tbl = Ok tr ->
  (outcome (validateTruncate ctx a dbName tbl) = (true, None)
   <-> scanIsClean (normalizedDbName ctx dbName) (ToLower (Table_Name tr))
                   (AllDatabases (Analyzer_Catalog a))).
Proof.
  intros Htr. rewrite (validateTruncate_outcome ctx a dbName tbl tr Htr).
  split.
  - destruct (snd (rangeDatabases _ _ _)) as [[]|v] eqn:E; intros H.
    + now apply rangeDatabases_Next.
    + destruct (rangeDatabases_Return_error _ _ _ _ E) as (e & He).
      subst v. discriminate.
  - intros H. now rewrite rangeDatabases_clean.
Qed.

(** X5.  validateTruncate never answers (false, no error).  It answers
    [false] in two cases only: the reference is not truncatable, and the
    error is that of GetTruncatable; or some database bearing the
    normalized target name lists, under a name other than the target's, a
    table holding a foreign key that references the target, and the error
    is [ErrTruncateReferencedFromForeignKey] with the lower-cased target
    name, the name of that key and the name the table is listed under. *)
Theorem validateTruncate_false_is_truthful (ctx : Context) (a : Analyzer)
    (dbName : string) (tbl : Node) (err : option Error) :
  outcome (validateTruncate ctx a dbName tbl) = (false, err) ->
  (exists e, GetTruncatable tbl = Err e /\ err = Some e)
  \/ (exists tr d n fk,
        GetTruncatable tbl = Ok tr /\
        In d (AllDatabases (Analyzer_Catalog a)) /\
        ToLower (Database_Name d) = normalizedDbName ctx dbName /\
        referencedBy (ToLower (Table_Name tr)) d n fk /\
        err = Some (ErrTruncateReferencedFromForeignKey
                      (ToLower (Table_Name tr)) (fk_Name fk) n)).
Proof.
  destruct (GetTruncatable tbl) as [tr|e] eqn:Htr.
  - rewrite (validateTruncate_outcome ctx a dbName tbl tr Htr).
    destruct (snd (rangeDatabases _ _ _)) as [[]|v] eqn:E; intros H;
      [discriminate|]. subst v. right.
    destruct (rangeDatabases_Return _ _ _ _ E)
      as (d & Hd & Hname & [(e & _ & Hv)|(names & n & Hnames & Hn & Hne & Hs)]);
      [discriminate|].
    destruct (GetTableInsensitive d n) as [[u|]|e] eqn:Eu;
      try discriminate.
    destruct (GetForeignKeys u) as [[fks|e]|] eqn:Efk;
      try discriminate; try contradiction.
    destruct Hs as (fk & Hfk & Href & Hv). injection Hv as ->.
    exists tr, d, n, fk. repeat split; auto.
    exists names, u, fks. repeat split; assumption.
  - unfold outcome, validateTruncate. rewrite Htr. simpl.
    intros H. injection H as <-. left. eauto.
Qed.

(* ================================================================== *)
(** * What a rewrite tells about the catalog *)

(** A DELETE that comes back as a TRUNCATE went through the whole of
    deleteToTruncate. *)
Lemma deleteToTruncate_rewrite_inv ctx a c db c' :
  outcome (deleteToTruncate ctx a c) = Ok (Truncate db c') ->
  exists t,
    c = ResolvedTable t /\ c' = ResolvedTable t /\
    existsb AutoIncrement (Schema t) = false /\
    snd (rangeFindTable (DeleteFrom c) (ToLower (Table_Name t))
           (AllDatabases (Analyzer_Catalog a)) (false, ""))
      = Next (true, db) /\
    snd (rangeDbTriggers (DeleteFrom c) (ToLower (Table_Name t)) db (ToLower db)
           (AllDatabases (Analyzer_Catalog a)))
      = Next tt /\
    outcome (validateTruncate ctx a (ToLower db) c) = (true, None).
Proof.
  destruct c as [t|name d|c0|d c0|k cs]; try (intros H; discriminate).
  destruct (existsb AutoIncrement (Schema t)) eqn:Hauto.
  { unfold deleteToTruncate. rewrite Hauto. intros H. discriminate. }
  rewrite (deleteToTruncate_outcome ctx a t Hauto). cbv zeta.
  destruct (snd (rangeFindTable _ _ _ _)) as [[[|] found]|r] eqn:Ef.
  - destruct (snd (rangeDbTriggers _ _ _ _ _)) as [[]|r] eqn:Et.
    + destruct (outcome (validateTruncate ctx a (ToLower found) (ResolvedTable t)))
        as [[|] [e|]] eqn:Ev; intros H; try discriminate.
      injection H as -> <-. exists t. repeat split; assumption.
    + intros H. subst r.
      destruct (rangeDbTriggers_Return _ _ _ _ _ Et)
        as [H|(e & d & H & _)]; discriminate.
  - intros H. discriminate.
  - intros H. subst r.
    destruct (rangeFindTable_Return _ _ _ _ _ Ef)
      as [H|(e & d & H & _)]; discriminate.
Qed.

(** X6.  processTruncate turns a DELETE into a TRUNCATE only if the child
    of the DELETE is a resolved table with no auto-increment column that
    supports truncation, and the TRUNCATE is on that same resolved
    table. *)
Theorem rewrite_only_of_plain_truncatable_table (ctx : Context) (a : Analyzer)
    (c c' : Node) (db : string) :
  outcome (processTruncate ctx a (DeleteFrom c)) = Ok (Truncate db c') ->
  exists t,
    c = ResolvedTable t /\ c' = ResolvedTable t /\
    ~ hasAutoIncrement t /\ Truncateable t = true.
Proof.
  intros H. apply deleteToTruncate_rewrite_inv in H
    as (t & -> & -> & Hauto & _ & _ & Hv).
  exists t. repeat split.
  - intros Hc. apply hasAutoIncrement_existsb in Hc. congruence.
  - destruct (Truncateable t) eqn:E; [reflexivity|].
    unfold outcome, validateTruncate in Hv. simpl in Hv. rewrite E in Hv.
    discriminate.
Qed.

(** X7.  processTruncate turns a DELETE into a TRUNCATE only if the
    listings of all databases succeed and hold the name of the table,
    letter case apart, exactly once in all; the TRUNCATE carries the name
    of the database that lists it, as that database spells it. *)
Theorem rewrite_only_when_listed_once (ctx : Context) (a : Analyzer)
    (t : Table) (c' : Node) (db : string) :
  outcome (processTruncate ctx a (DeleteFrom (ResolvedTable t)))
    = Ok (Truncate db c') ->
  exists before d after,
    AllDatabases (Analyzer_Catalog a) = before ++ d :: after /\
    Forall (listsNoSuchTable t) (before ++ after) /\
    listsOnce t d /\ db = Database_Name d.
Proof.
  intros H.
  change (outcome (deleteToTruncate ctx a (ResolvedTable t))
            = Ok (Truncate db c')) in H.
  apply deleteToTruncate_rewrite_inv in H
    as (t' & Ht & _ & _ & Hf & _ & _).
  injection Ht as <-.
  destruct (rangeFindTable_Next _ _ _ _ _ _ _ Hf)
    as [(Hc & _)|(_ & _ & before & d & after & Hdbs & Hno & Honce & Hdb)];
    [discriminate|].
  exists before, d, after. auto.
Qed.

(** X8.  processTruncate turns a DELETE into a TRUNCATE only if the
    triggers of all databases load and every delete trigger among them has
    an unresolved-table reference as its target that is not on the table
    in the database the TRUNCATE names. *)
Theorem rewrite_only_without_delete_trigger (ctx : Context) (a : Analyzer)
    (t : Table) (c' : Node) (db : string) :
  outcome (processTruncate ctx a (DeleteFrom (ResolvedTable t)))
    = Ok (Truncate db c') ->
  Forall (noDeleteTriggerOn t db) (AllDatabases (Analyzer_Catalog a)).
Proof.
  intros H.
  change (outcome (deleteToTruncate ctx a (ResolvedTable t))
            = Ok (Truncate db c')) in H.
  apply deleteToTruncate_rewrite_inv in H
    as (t' & Ht & _ & _ & _ & Htrig & _).
  injection Ht as <-.
  exact (rangeDbTriggers_Next _ _ _ _ Htrig).
Qed.

(** X9.  processTruncate turns a DELETE into a TRUNCATE only if, in every
    database that validateTruncate scans for the matched database name,
    the listing succeeds and every listed name other than the table's
    fetches a table whose foreign keys can be read and do not reference
    the table. *)
Theorem rewrite_only_when_unreferenced (ctx : Context) (a : Analyzer)
    (t : Table) (c' : Node) (db : string) :
  outcome (processTruncate ctx a (DeleteFrom (ResolvedTable t)))
    = Ok (Truncate db c') ->
  scanIsClean (normalizedDbName ctx (ToLower db)) (ToLower (Table_Name t))
              (AllDatabases (Analyzer_Catalog a)).
Proof.
  intros H.
  change (outcome (deleteToTruncate ctx a (ResolvedTable t))
            = Ok (Truncate db c')) in H.
  apply deleteToTruncate_rewrite_inv in H
    as (t' & Ht & _ & _ & _ & _ & Hv).
  injection Ht as <-.
  destruct (GetTruncatable (ResolvedTable t)) as [tr|e] eqn:Htr.
  - assert (tr = t) as ->.
    { simpl in Htr. destruct (Truncateable t); congruence. }
    rewrite (validateTruncate_outcome ctx a _ _ t Htr) in Hv.
    destruct (snd (rangeDatabases _ _ _)) as [[]|v] eqn:E.
    + now apply rangeDatabases_Next.
    + destruct (rangeDatabases_Return_error _ _ _ _ E) as (e & He).
      subst v. discriminate.
  - unfold outcome, validateTruncate in Hv. rewrite Htr in Hv. discriminate.
Qed.

(* ================================================================== *)
(** * What processTruncate hands back *)

Lemma deleteToTruncate_Ok ctx a c r :
  outcome (deleteToTruncate ctx a c) = Ok r ->
  r = DeleteFrom c
  \/ exists t db, c = ResolvedTable t /\ r = Truncate db (ResolvedTable t).
Proof.
  destruct c as [t|name d|c0|d c0|k cs];
    try (intros H; injection H as <-; now left).
  destruct (existsb AutoIncrement (Schema t)) eqn:Hauto.
  { unfold deleteToTruncate. rewrite Hauto. intros H. injection H as <-.
    now left. }
  rewrite (deleteToTruncate_outcome ctx a t Hauto). cbv zeta.
  destruct (snd (rangeFindTable _ _ _ _)) as [[[|] found]|r0] eqn:Ef.
  - destruct (snd (rangeDbTriggers _ _ _ _ _)) as [[]|r0] eqn:Et.
    + destruct (outcome (validateTruncate ctx a (ToLower found) (ResolvedTable t)))
        as [[|] [e|]]; intros H; try discriminate;
        injection H as <-; eauto.
    + intros H. subst r0.
      destruct (rangeDbTriggers_Return _ _ _ _ _ Et)
        as [H|(e & d & H & _)]; [|discriminate].
      injection H as <-. now left.
  - intros H. injection H as <-. now left.
  - intros H. subst r0.
    destruct (rangeFindTable_Return _ _ _ _ _ Ef)
      as [H|(e & d & H & _)]; [|discriminate].
    injection H as <-. now left.
Qed.

(** X10.  Whatever node processTruncate hands back without an error is
    the node it was given, with one exception: a DELETE on a resolved
    table may come back as a TRUNCATE of that same resolved table.  An
    explicit TRUNCATE, and a node of any other kind, is never changed. *)
Theorem processTruncate_changes_only_delete (ctx : Context) (a : Analyzer)
    (n r : Node) :
  outcome (processTruncate ctx a n) = Ok r ->
  r = n
  \/ exists t db,
       n = DeleteFrom (ResolvedTable t) /\ r = Truncate db (ResolvedTable t).
Proof.
  destruct n as [t|name d|c|db c|k cs];
    try (intros H; injection H as <-; now left).
  - intros H.
    change (outcome (deleteToTruncate ctx a c) = Ok r) in H.
    destruct (deleteToTruncate_Ok ctx a c r H) as [->|(t & db & -> & ->)].
    + now left.
    + right. eauto.
  - rewrite processTruncate_Truncate_outcome.
    destruct (snd (outcome (validateTruncate ctx a db c))); intros H;
      [discriminate|]. injection H as <-. now left.
Qed.

(* ================================================================== *)
(** * Where the errors of a DELETE come from *)

Lemma validateTruncate_true_error ctx a dbName tbl e :
  outcome (validateTruncate ctx a dbName tbl) = (true, Some e) ->
  lookupFailsWith (AllDatabases (Analyzer_Catalog a)) e
  \/ exists d n, In d (AllDatabases (Analyzer_Catalog a)) /\
                 listsUnfetchable d n /\ e = ErrTableNotFound n.
Proof.
  destruct (GetTruncatable tbl) as [tr|e0] eqn:Htr.
  2:{ unfold outcome, validateTruncate. rewrite Htr. discriminate. }
  rewrite (validateTruncate_outcome ctx a dbName tbl tr Htr).
  destruct (snd (rangeDatabases _ _ _)) as [[]|v] eqn:E; intros H;
    [discriminate|]. subst v.
  destruct (rangeDatabases_Return _ _ _ _ E)
    as (d & Hd & _ & [(e' & Hn & Hv)|(names & n & Hnames & Hn & _ & Hs)]).
  - injection Hv as <-. left. exists d. auto.
  - destruct (GetTableInsensitive d n) as [[u|]|e'] eqn:Eu.
    + destruct (GetForeignKeys u) as [[fks|e']|] eqn:Efk.
      * destruct Hs as (fk & _ & _ & Hv). discriminate.
      * injection Hs as <-. left. exists d. split; [exact Hd|].
        right. right. exists n. right. exists u. auto.
      * contradiction.
    + injection Hs as ->. right. exists d, n. repeat split; auto.
      exists names. auto.
    + injection Hs as <-. left. exists d. split; [exact Hd|].
      right. right. exists n. now left.
Qed.

(** X11.  When processTruncate fails on a DELETE, the error is one that a
    lookup on a database of the catalog failed with, or it is
    [ErrTableNotFound] for a name that a database lists and cannot fetch.
    The errors that validateTruncate makes for a table that is referenced
    by a foreign key, or that does not support truncation, never come
    out of a DELETE. *)
Theorem delete_fails_only_on_lookups (ctx : Context) (a : Analyzer)
    (c : Node) (e : Error) :
  outcome (processTruncate ctx a (DeleteFrom c)) = Err e ->
  lookupFailsWith (AllDatabases (Analyzer_Catalog a)) e
  \/ exists d n, In d (AllDatabases (Analyzer_Catalog a)) /\
                 listsUnfetchable d n /\ e = ErrTableNotFound n.
Proof.
  intros H. change (outcome (deleteToTruncate ctx a c) = Err e) in H.
  destruct c as [t|name d|c0|d c0|k cs]; try discriminate.
  destruct (existsb AutoIncrement (Schema t)) eqn:Hauto.
  { unfold deleteToTruncate in H. rewrite Hauto in H. discriminate. }
  rewrite (deleteToTruncate_outcome ctx a t Hauto) in H. cbv zeta in H.
  destruct (snd (rangeFindTable _ _ _ _)) as [[[|] found]|r0] eqn:Ef.
  - destruct (snd (rangeDbTriggers _ _ _ _ _)) as [[]|r0] eqn:Et.
    + destruct (outcome (validateTruncate ctx a (ToLower found) (ResolvedTable t)))
        as [[|] [e'|]] eqn:Ev; try discriminate.
      injection H as ->.
      exact (validateTruncate_true_error _ _ _ _ _ Ev).
    + subst r0.
      destruct (rangeDbTriggers_Return _ _ _ _ _ Et)
        as [H|(e' & d & H & Hd & He)]; [discriminate|].
      injection H as ->. left. exists d. auto.
  - discriminate.
  - subst r0.
    destruct (rangeFindTable_Return _ _ _ _ _ Ef)
      as [H|(e' & d & H & Hd & He)]; [discriminate|].
    injection H as ->. left. exists d. auto.
Qed.

(* ================================================================== *)
(** * More on the calls made *)

Lemma rangeTableNames_on_database db tableName names :
  Forall (fun ev => databaseOf (ev_lookup ev) = Some (Database_Name db))
         (fst (rangeTableNames db tableName names)).
Proof.
  induction names as [|n rest IH]; simpl.
  - constructor.
  - destruct (ToLower n =? tableName); [exact IH|].
    apply Forall_fst_bind; [repeat constructor|].
    intros [[u|]|e]; try constructor.
    destruct (GetForeignKeys u); [|exact IH].
    apply Forall_fst_bind; [repeat constructor|].
    intros [fks|e]; [|constructor].
    apply Forall_fst_bind; [constructor|]. intros _. exact IH.
Qed.

Lemma rangeDatabases_on_target dbName tableName dbs :
  Forall (fun ev => forall d, databaseOf (ev_lookup ev) = Some d ->
                              ToLower d = dbName)
         (fst (rangeDatabases dbName tableName dbs)).
Proof.
  induction dbs as [|db rest IH]; simpl.
  - constructor.
  - destruct (String.eqb_spec (ToLower (Database_Name db)) dbName) as [E|E];
      simpl; [|exact IH].
    apply Forall_fst_bind.
    { repeat constructor. simpl. intros d Hd. now injection Hd as <-. }
    intros [names|e]; [|constructor].
    apply Forall_fst_bind; [|intros _; exact IH].
    eapply Forall_impl; [|apply rangeTableNames_on_database].
    intros ev Hev d Hd. rewrite Hev in Hd. now injection Hd as <-.
Qed.

Lemma validateTruncate_calls_on_target ctx a dbName tbl :
  Forall (fun ev => forall d, databaseOf (ev_lookup ev) = Some d ->
                              ToLower d = normalizedDbName ctx dbName)
         (calls (validateTruncate ctx a dbName tbl)).
Proof.
  unfold calls, validateTruncate.
  destruct (GetTruncatable tbl) as [tr|e]; [|constructor].
  rewrite fst_run. fold (normalizedDbName ctx dbName).
  apply Forall_fst_bind.
  - repeat constructor. intros d' Hd. discriminate.
  - intros dbs. apply Forall_fst_bind.
    + apply rangeDatabases_on_target.
    + intros _. constructor.
Qed.

(** X12.  validateTruncate asks nothing of a database whose name is not
    the normalized target name, letter case apart: every listing, fetch
    and foreign-key call it makes is on a database bearing that name. *)
Theorem validateTruncate_asks_only_target_databases (ctx : Context)
    (a : Analyzer) (dbName : string) (tbl : Node) (ev : Event) (d : string) :
  In ev (calls (validateTruncate ctx a dbName tbl)) ->
  databaseOf (ev_lookup ev) = Some d ->
  ToLower d = normalizedDbName ctx dbName.
Proof.
  intros Hin.
  pose proof (validateTruncate_calls_on_target ctx a dbName tbl) as H.
  rewrite Forall_forall in H. exact (H ev Hin d).
Qed.

Lemma Forall_removelast {A} (P : A -> Prop) (l : list A) :
  Forall P l -> Forall P (removelast l).
Proof.
  induction 1 as [|x l Hx Hl IH]; simpl.
  - constructor.
  - destruct l; [constructor|]. constructor; assumption.
Qed.

Lemma onlyLastMayFail_app l l' :
  Forall (fun ev => ev_err ev = None) l -> onlyLastMayFail l' ->
  onlyLastMayFail (l ++ l').
Proof.
  unfold onlyLastMayFail. intros Hl Hl'. destruct l' as [|x l'].
  - rewrite app_nil_r. now apply Forall_removelast.
  - rewrite removelast_app by discriminate. apply Forall_app. auto.
Qed.

Lemma propagates_Next_clean {R A} (fail : Error -> R) (l : list Event) (x : A) :
  propagates fail (l, Next x) -> Forall (fun ev => ev_err ev = None) l.
Proof.
  intros H. apply Forall_forall. intros ev Hin.
  destruct (ev_err ev) as [e|] eqn:E; [|reflexivity].
  specialize (H ev e Hin E). discriminate.
Qed.

Section OnlyLast.

Variable R : Type.
Variable fail : Error -> R.

Lemma onlyLast_bind {A B} (m : M R A) (f : A -> M R B) :
  propagates fail m -> onlyLastMayFail (fst m) ->
  (forall x, onlyLastMayFail (fst (f x))) ->
  onlyLastMayFail (fst (bind m f)).
Proof.
  intros Hp Hm Hf. destruct m as [l [x|r]].
  - rewrite bind_next. simpl. apply onlyLastMayFail_app; [|apply Hf].
    exact (propagates_Next_clean fail l x Hp).
  - exact Hm.
Qed.

Lemma onlyLast_call {A B} (k : Lookup) (r : result A) (f : result A -> M R B) :
  (forall e, f (Err e) = exit (fail e)) ->
  (forall x, onlyLastMayFail (fst (f (Ok x)))) ->
  onlyLastMayFail (fst (bind (call k r) f)).
Proof.
  intros Herr Hok. unfold call. rewrite bind_next. simpl.
  destruct r as [x|e].
  - apply (onlyLastMayFail_app [_]); [repeat constructor|apply Hok].
  - rewrite Herr. constructor.
Qed.

Lemma onlyLast_allDatabases {B} (a : Analyzer) (f : list Database -> M R B) :
  (forall dbs, onlyLastMayFail (fst (f dbs))) ->
  onlyLastMayFail (fst (bind (allDatabases a) f)).
Proof.
  intros Hf. unfold allDatabases. rewrite bind_next. simpl.
  apply (onlyLastMayFail_app [_]); [repeat constructor|apply Hf].
Qed.

End OnlyLast.

Lemma onlyLast_nil : onlyLastMayFail [].
Proof. constructor. Qed.

Lemma rangeTableNames_onlyLast db tableName names :
  onlyLastMayFail (fst (rangeTableNames db tableName names)).
Proof.
  induction names as [|n rest IH]; simpl.
  - apply onlyLast_nil.
  - destruct (ToLower n =? tableName); [exact IH|].
    apply (onlyLast_call _ failValidate); [reflexivity|].
    intros [u|]; [|apply onlyLast_nil].
    destruct (GetForeignKeys u); [|exact IH].
    apply (onlyLast_call _ failValidate); [reflexivity|].
    intros fks. apply (onlyLast_bind _ failValidate).
    + apply propagates_lift.
    + apply onlyLast_nil.
    + intros _. exact IH.
Qed.

Lemma rangeDatabases_onlyLast dbName tableName dbs :
  onlyLastMayFail (fst (rangeDatabases dbName tableName dbs)).
Proof.
  induction dbs as [|db rest IH]; simpl.
  - apply onlyLast_nil.
  - destruct (negb _); [exact IH|].
    apply (onlyLast_call _ failValidate); [reflexivity|].
    intros names. apply (onlyLast_bind _ failValidate).
    + apply rangeTableNames_propagates.
    + apply rangeTableNames_onlyLast.
    + intros _. exact IH.
Qed.

Lemma validateTruncate_onlyLast ctx a dbName tbl :
  onlyLastMayFail (calls (validateTruncate ctx a dbName tbl)).
Proof.
  unfold calls, validateTruncate.
  destruct (GetTruncatable tbl); [|apply onlyLast_nil].
  rewrite fst_run. apply onlyLast_allDatabases. intros dbs.
  apply (onlyLast_bind _ failValidate).
  - apply rangeDatabases_propagates.
  - apply rangeDatabases_onlyLast.
  - intros _. apply onlyLast_nil.
Qed.

Lemma rangeFindTable_onlyLast deletePlan tblName dbs : forall st,
  onlyLastMayFail (fst (rangeFindTable deletePlan tblName dbs st)).
Proof.
  induction dbs as [|db rest IH]; intros st; simpl.
  - apply onlyLast_nil.
  - apply (onlyLast_call _ (@Err Node)); [reflexivity|].
    intros names. apply (onlyLast_bind _ (@Err Node)).
    + apply propagates_lift.
    + apply onlyLast_nil.
    + intros st'. apply IH.
Qed.

Lemma rangeDbTriggers_onlyLast deletePlan tblName dbName dbNameLower dbs :
  onlyLastMayFail
    (fst (rangeDbTriggers deletePlan tblName dbName dbNameLower dbs)).
Proof.
  induction dbs as [|db rest IH]; simpl.
  - apply onlyLast_nil.
  - apply (onlyLast_call _ (@Err Node)); [reflexivity|].
    intros ts. apply (onlyLast_bind _ (@Err Node)).
    + apply propagates_lift.
    + apply onlyLast_nil.
    + intros _. exact IH.
Qed.

Lemma deleteToTruncate_onlyLast ctx a c :
  onlyLastMayFail (calls (deleteToTruncate ctx a c)).
Proof.
  unfold calls, deleteToTruncate.
  destruct c as [t| | | |]; try apply onlyLast_nil.
  destruct (existsb AutoIncrement (Schema t)); [apply onlyLast_nil|].
  rewrite fst_run. apply onlyLast_allDatabases. intros dbs.
  apply (onlyLast_bind _ (@Err Node)).
  - apply rangeFindTable_propagates.
  - apply rangeFindTable_onlyLast.
  - intros [found dbName].
    destruct (negb found); [apply onlyLast_nil|].
    apply onlyLast_allDatabases. intros dbs'.
    apply (onlyLast_bind _ (@Err Node)).
    + apply rangeDbTriggers_propagates.
    + apply rangeDbTriggers_onlyLast.
    + intros _.
      pose proof (validateTruncate_onlyLast ctx a (ToLower dbName)
                    (ResolvedTable t)) as Hv.
      unfold calls in Hv.
      destruct (validateTruncate ctx a (ToLower dbName) (ResolvedTable t))
        as [l [ok err]].
      unfold invoke. rewrite bind_next. simpl in *.
      destruct ok; [destruct err|]; simpl; now rewrite app_nil_r.
Qed.

(** X13.  processTruncate stops at the first lookup that fails: in the
    sequence of calls it makes to the catalog, the databases, the tables
    and the trigger source, every call but the last one succeeded. *)
Theorem processTruncate_stops_at_first_failure (ctx : Context) (a : Analyzer)
    (n : Node) :
  onlyLastMayFail (calls (processTruncate ctx a n)).
Proof.
  destruct n as [t|name d|c|db c|k cs]; try apply onlyLast_nil.
  - apply deleteToTruncate_onlyLast.
  - pose proof (validateTruncate_onlyLast ctx a db c) as Hv.
    unfold calls in *. simpl.
    destruct (validateTruncate ctx a db c) as [l [ok [e|]]]; exact Hv.
Qed.

(* ================================================================== *)
(** * InspectNode *)

Lemma Node_induction (P : Node -> Prop) :
  (forall n, Forall P (Node_Children n) -> P n) -> forall n, P n.
Proof.
  intros H. fix IH 1. intros n. apply H.
  destruct n as [t|name d|c|db c|k cs]; simpl.
  - constructor.
  - constructor.
  - constructor; [apply IH|constructor].
  - constructor; [apply IH|constructor].
  - induction cs as [|c rest IHrest]; constructor.
    + apply IH.
    + exact IHrest.
Qed.

Lemma nodeWalk_range_eq {St} (v : nodeInspector St) (cs : list Node) :
  forall s,
  (fix range (cs : list Node) (s : St) : St * list (option Node) :=
     match cs with
     | [] => (s, [])
     | child :: rest =>
         let '(sa, ca) := nodeWalk v child s in
         let '(sb, cb) := range rest sa in
         (sb, ca ++ cb)
     end) cs s = nodeWalkChildren v cs s.
Proof.
  induction cs as [|c cs IH]; intros s; simpl.
  - reflexivity.
  - destruct (nodeWalk v c s) as [sa ca]. rewrite IH. reflexivity.
Qed.

(** nodeWalk, one level unfolded, with the children as [Children()]
    gives them. *)
Lemma nodeWalk_eq {St} (v : nodeInspector St) (n : Node) (s : St) :
  nodeWalk v n s =
  let '(s1, b) := v (Some n) s in
  if negb b then (s1, [Some n])
  else
    let '(s2, calls) := nodeWalkChildren v (Node_Children n) s1 in
    (fst (v None s2), Some n :: calls ++ [None]).
Proof.
  destruct n as [t|name d|c|db c|k cs]; simpl;
    destruct (v (Some _) s) as [s1 b]; destruct b; simpl; try reflexivity.
  rewrite nodeWalk_range_eq. reflexivity.
Qed.

Lemma Node_preorder_eq (n : Node) :
  Node_preorder n = n :: flat_map Node_preorder (Node_Children n).
Proof. destruct n; reflexivity. Qed.

Lemma visitedNodes_app l1 l2 :
  visitedNodes (l1 ++ l2) = visitedNodes l1 ++ visitedNodes l2.
Proof. unfold visitedNodes. apply flat_map_app. Qed.

Lemma nodeSentinels_app l1 l2 :
  nodeSentinels (l1 ++ l2) = nodeSentinels l1 + nodeSentinels l2.
Proof. unfold nodeSentinels. now rewrite filter_app, length_app. Qed.

(** X14.  When the function answers [true] on every node, in every state,
    InspectNode calls it on every node of the plan, once each, in
    depth-first order with parents first, and calls it with [nil] once
    for every node of the plan. *)
Theorem InspectNode_visits_every_node {St} (f : nodeInspector St) :
  (forall x s, snd (f (Some x) s) = true) ->
  forall n s,
    visitedNodes (snd (InspectNode n f s)) = Node_preorder n
    /\ nodeSentinels (snd (InspectNode n f s)) = length (Node_preorder n).
Proof.
  intros Htrue. unfold InspectNode.
  induction n as [n IH] using Node_induction.
  intros s. rewrite nodeWalk_eq, Node_preorder_eq.
  specialize (Htrue n s). destruct (f (Some n) s) as [s1 b].
  simpl in Htrue. subst b. simpl negb. cbv iota.
  assert (Hc : forall s0,
             visitedNodes (snd (nodeWalkChildren f (Node_Children n) s0))
               = flat_map Node_preorder (Node_Children n)
             /\ nodeSentinels (snd (nodeWalkChildren f (Node_Children n) s0))
               = length (flat_map Node_preorder (Node_Children n))).
  { induction IH as [|c rest Hc _ IHrest]; intros s0; simpl.
    - split; reflexivity.
    - destruct (Hc s0) as [Hv Hs].
      destruct (nodeWalk f c s0) as [sa ca].
      destruct (IHrest sa) as [Hv' Hs'].
      destruct (nodeWalkChildren f rest sa) as [sb cb].
      simpl in *. rewrite visitedNodes_app, nodeSentinels_app, length_app.
      now rewrite Hv, Hv', Hs, Hs'. }
  destruct (Hc s1) as [Hv Hs].
  destruct (nodeWalkChildren f (Node_Children n) s1) as [s2 calls].
  simpl in *. split.
  - change (Some n :: calls ++ [None]) with ([Some n] ++ calls ++ [None]).
    rewrite !visitedNodes_app, Hv. unfold visitedNodes. simpl.
    now rewrite app_nil_r.
  - change (Some n :: calls ++ [None]) with ([Some n] ++ calls ++ [None]).
    rewrite !nodeSentinels_app, Hs. unfold nodeSentinels. simpl. lia.
Qed.

(* ================================================================== *)
(** * Inspect with a function that prunes *)

Lemma prunedPreorder_eq p (e : Expression) :
  prunedPreorder p e
    = e :: (if p e then flat_map (prunedPreorder p) (Children e) else []).
Proof. destruct e; reflexivity. Qed.

(** X2.  Let the answer of the function on an expression be [p] of that
    expression, whatever the state.  Then Inspect calls the function on
    the expressions reached from the root without passing below an
    expression on which [p] is [false], once each, in depth-first order
    with parents first, and on no other expression; and it calls it with
    [nil] once for each of them on which [p] is [true]. *)
Theorem Inspect_visits_the_pruned_tree {St} (f : inspector St)
    (p : Expression -> bool) :
  (forall x s, snd (f (Some x) s) = p x) ->
  forall e s,
    visited (snd (Inspect e f s)) = prunedPreorder p e
    /\ sentinels (snd (Inspect e f s))
       = length (filter p (prunedPreorder p e)).
Proof.
  intros Hp. unfold Inspect.
  induction e as [label children IH] using Expression_induction.
  intros s. rewrite Walk_eq, prunedPreorder_eq. simpl Children.
  assert (Hc : forall s0,
             visited (snd (WalkChildren inspector_Visit f children s0))
               = flat_map (prunedPreorder p) children
             /\ sentinels (snd (WalkChildren inspector_Visit f children s0))
               = length (filter p (flat_map (prunedPreorder p) children))).
  { induction IH as [|c rest Hc _ IHrest]; intros s0; simpl.
    - split; reflexivity.
    - destruct (Hc s0) as [Hv Hs].
      destruct (Walk inspector_Visit f c s0) as [sa ca].
      destruct (IHrest sa) as [Hv' Hs'].
      destruct (WalkChildren inspector_Visit f rest sa) as [sb cb].
      simpl in *.
      rewrite visited_app, sentinels_app, filter_app, length_app.
      now rewrite Hv, Hv', Hs, Hs'. }
  destruct (p (Expr label children)) eqn:Epe.
  - rewrite (inspector_Visit_true f _ s)
      by (rewrite Hp; exact Epe).
    destruct (Hc (fst (f (Some (Expr label children)) s))) as [Hv Hs].
    destruct (WalkChildren inspector_Visit f children _) as [s2 calls].
    simpl in *. rewrite Epe. split.
    + now rewrite visited_cons_some, visited_snoc_none, Hv.
    + rewrite sentinels_cons_some, sentinels_snoc_none, Hs. reflexivity.
  - rewrite (inspector_Visit_false f _ s)
      by (rewrite Hp; exact Epe).
    simpl. rewrite Epe. split; reflexivity.
Qed.

(* ================================================================== *)
(** * An explicit TRUNCATE *)

(** X15.  processTruncate accepts an explicit TRUNCATE, handing the node
    back with no error, exactly when its table reference is truncatable
    and, in every database bearing the normalized target name, the listing
    succeeds and every listed name other than the target's fetches a
    table whose foreign keys can be read and do not reference the
    target.  In every other case it fails. *)
Theorem explicit_truncate_accepted_iff (ctx : Context) (a : Analyzer)
    (db : string) (c : Node) :
  outcome (processTruncate ctx a (Truncate db c)) = Ok (Truncate db c)
  <-> exists tr,
        GetTruncatable c = Ok tr /\
        scanIsClean (normalizedDbName ctx db) (ToLower (Table_Name tr))
                    (AllDatabases (Analyzer_Catalog a)).
Proof.
  rewrite processTruncate_Truncate_outcome.
  destruct (GetTruncatable c) as [tr|e] eqn:Htr.
  - rewrite (validateTruncate_outcome ctx a db c tr Htr).
    destruct (snd (rangeDatabases _ _ _)) as [[]|v] eqn:E; simpl.
    + split; [|reflexivity]. intros _. exists tr. split; [reflexivity|].
      now apply rangeDatabases_Next.
    + destruct (rangeDatabases_Return_error _ _ _ _ E) as (e & He).
      rewrite He. split; [discriminate|].
      intros (tr' & Heq & Hclean). injection Heq as <-.
      rewrite (rangeDatabases_clean _ _ _ Hclean) in E. discriminate.
  - unfold outcome at 1, validateTruncate. rewrite Htr. simpl.
    split; [discriminate|]. intros (tr & Heq & _). discriminate.
Qed.

End PassFacts.

(* ================================================================== *)
(** * Runs on catalogs with ASCII names *)

(** On strings of ASCII characters [strings.ToLower] is [asciiToLower]. *)
#[local] Existing Instance asciiLowering.

(** The walk of [rootExpr] by [countingInspector]: [leafA] and [skipped]
    are pruned, [leafB] after them is still visited, and the expression
    below [skipped] is not. *)
Lemma Walk_prunes_subtree_not_siblings_witness :
  Walk inspector_Visit countingInspector skipped 2
    = (3, [(countingInspector, Some skipped)])
  /\ snd (Inspect rootExpr countingInspector 0)
    = [(countingInspector, Some rootExpr);
       (countingInspector, Some leafA);
       (countingInspector, Some skipped);
       (countingInspector, Some leafB);
       (countingInspector, None);
       (countingInspector, None)]
  /\ In (countingInspector, Some leafB)
        (snd (WalkChildren inspector_Visit countingInspector
                [leafA; skipped; leafB] 1)).
Proof.
  split; [|split].
  - apply (Walk_prunes_subtree_not_siblings inspector_Visit
             countingInspector skipped 2). reflexivity.
  - reflexivity.
  - apply (Walk_prunes_subtree_not_siblings inspector_Visit
             countingInspector skipped 1). simpl. auto.
Defined.

Lemma lookup_errors_reach_the_caller_witness :
  outcome (processTruncate (inDatabase "sales")
             (analyzerOf [sales; brokenDatabase "archive"])
             (DeleteFrom (ResolvedTable order_items)))
  = Err (ErrMetadata "io").
Proof.
  apply (lookup_errors_reach_the_caller (inDatabase "sales")
           (analyzerOf [sales; brokenDatabase "archive"])
           (DeleteFrom (ResolvedTable order_items))
           {| ev_lookup := CallGetTableNames "archive";
              ev_err := Some (ErrMetadata "io") |}).
  - vm_compute. auto.
  - reflexivity.
Defined.

Lemma auto_increment_keeps_delete_witness :
  deleteToTruncate (inDatabase "sales")
      (analyzerOf [memDatabase "sales" [invoices] []; brokenDatabase "archive"])
      (ResolvedTable invoices)
    = ([], Ok (DeleteFrom (ResolvedTable invoices)))
  /\ processTruncate (inDatabase "sales")
      (analyzerOf [memDatabase "sales" [invoices] []; brokenDatabase "archive"])
      (DeleteFrom (ResolvedTable invoices))
    = ([], Ok (DeleteFrom (ResolvedTable invoices))).
Proof.
  apply (auto_increment_keeps_delete (inDatabase "sales")
           (analyzerOf [memDatabase "sales" [invoices] [];
                        brokenDatabase "archive"]) invoices).
  exists {| Column_Name := "id"; AutoIncrement := true |}.
  split; [simpl; auto | reflexivity].
Defined.

Lemma unknown_database_passes_validation_witness :
  (validateTruncate (inDatabase "") (analyzerOf [sales]) "" (ResolvedTable orders)
     = ([{| ev_lookup := CallAllDatabases; ev_err := None |}], (true, None))
   /\ processTruncate (inDatabase "") (analyzerOf [sales])
        (Truncate "" (ResolvedTable orders))
     = ([{| ev_lookup := CallAllDatabases; ev_err := None |}],
        Ok (Truncate "" (ResolvedTable orders))))
  /\ (validateTruncate (inDatabase "") (analyzerOf [sales]) ""
        (ResolvedTable viewLike)
      = ([], (false, Some ErrTruncateNotSupported))
      /\ processTruncate (inDatabase "") (analyzerOf [sales])
           (Truncate "" (ResolvedTable viewLike))
         = ([], Err ErrTruncateNotSupported)).
Proof.
  split.
  - destruct (unknown_database_passes_validation (inDatabase "")
                (analyzerOf [sales]) "" (ResolvedTable orders)) as [H _].
    apply (H orders).
    + reflexivity.
    + repeat constructor. vm_compute. discriminate.
  - destruct (unknown_database_passes_validation (inDatabase "")
                (analyzerOf [sales]) "" (ResolvedTable viewLike)) as [_ H].
    apply H. reflexivity.
Defined.

(** C10 as stated fails: no database matches the normalized target name,
    yet validateTruncate answers (false, error) and the explicit TRUNCATE
    fails, because the table does not support truncation. *)
Lemma unknown_database_counterexample :
  Forall (fun db => ToLower (Database_Name db) <> normalizedDbName (inDatabase "") "")
         (AllDatabases (Analyzer_Catalog (analyzerOf [sales])))
  /\ outcome (validateTruncate (inDatabase "") (analyzerOf [sales]) ""
                (ResolvedTable viewLike))
     = (false, Some ErrTruncateNotSupported)
  /\ outcome (validateTruncate (inDatabase "") (analyzerOf [sales]) ""
                (ResolvedTable viewLike))
     <> (true, None)
  /\ outcome (processTruncate (inDatabase "") (analyzerOf [sales])
                (Truncate "" (ResolvedTable viewLike)))
     = Err ErrTruncateNotSupported.
Proof.
  repeat split.
  - repeat constructor. vm_compute. discriminate.
  - vm_compute. discriminate.
Qed.

Lemma ambiguous_or_absent_keeps_delete_witness :
  outcome (deleteToTruncate (inDatabase "sales")
             (analyzerOf [sales; archive; brokenDatabase "offline"])
             (ResolvedTable orders))
    = Ok (DeleteFrom (ResolvedTable orders)).
Proof.
  apply (ambiguous_or_absent_keeps_delete (inDatabase "sales")
           (analyzerOf [sales; archive; brokenDatabase "offline"]) orders).
  left. exists [], sales, [], archive, [brokenDatabase "offline"].
  repeat split.
  - constructor.
  - exists ["orders"; "order_items"], "orders". simpl. auto.
  - exists ["Orders"], "Orders". simpl. auto.
Defined.

(** C6 as stated fails.  Two databases list [orders], but the listing of a
    database between them fails: the error is handed back, not the DELETE.
    Likewise when no database lists the table and one listing fails. *)
Lemma ambiguous_or_absent_counterexample :
  (listsTable orders sales /\ listsTable orders archive
   /\ outcome (deleteToTruncate (inDatabase "sales")
                 (analyzerOf [sales; brokenDatabase "offline"; archive])
                 (ResolvedTable orders))
      = Err (ErrMetadata "io"))
  /\ ((forall db, In db [brokenDatabase "offline"] -> ~ listsTable orders db)
      /\ outcome (deleteToTruncate (inDatabase "sales")
                    (analyzerOf [brokenDatabase "offline"])
                    (ResolvedTable orders))
         = Err (ErrMetadata "io")).
Proof.
  repeat split.
  - exists ["orders"; "order_items"], "orders". simpl. auto.
  - exists ["Orders"], "Orders". simpl. auto.
  - intros db [<-|[]] (names & n & Hns & _). discriminate.
Qed.

Lemma delete_trigger_keeps_delete_witness :
  outcome (deleteToTruncate (inDatabase "shop")
             (analyzerOf [shop [onOrders "insert"; onOrders "delete"]])
             (ResolvedTable orders))
    = Ok (DeleteFrom (ResolvedTable orders))
  /\ outcome (deleteToTruncate (inDatabase "shop")
             (analyzerOf [shop [onOrders "insert"; onOrders "update"]])
             (ResolvedTable orders))
    = Ok (Truncate "shop" (ResolvedTable orders)).
Proof.
  split; [|reflexivity].
  destruct (delete_trigger_keeps_delete (inDatabase "shop")
              (analyzerOf [shop [onOrders "insert"; onOrders "delete"]])
              orders) as [H _].
  apply (H (shop [onOrders "insert"; onOrders "delete"]) []
           (shop [onOrders "insert"; onOrders "delete"]) []
           (onOrders "delete")).
  - repeat constructor. eexists; reflexivity.
  - simpl. auto.
  - exists ["orders"; "order_items"], "orders". simpl. auto.
  - reflexivity.
  - constructor.
  - eexists. split; [reflexivity|]. simpl. auto.
  - reflexivity.
  - exists "Orders", "". repeat split. left. split; reflexivity.
Defined.

(** C4 as stated fails.  [shop] defines a delete trigger on [orders], yet
    the DELETE is not handed back: the listing of a database scanned
    earlier fails and its error is returned. *)
Lemma delete_trigger_counterexample :
  definesTrigger (shop [onOrders "delete"]) (onOrders "delete")
  /\ triggerTargets orders "shop" (shop [onOrders "delete"]) (onOrders "delete")
  /\ listsTable orders (shop [onOrders "delete"])
  /\ outcome (deleteToTruncate (inDatabase "shop")
                (analyzerOf [brokenDatabase "offline"; shop [onOrders "delete"]])
                (ResolvedTable orders))
     = Err (ErrMetadata "io").
Proof.
  repeat split.
  - eexists. split; [reflexivity|]. simpl. auto.
  - exists "Orders", "". repeat split. left. split; reflexivity.
  - exists ["orders"; "order_items"], "orders". simpl. auto.
Qed.

Lemma self_reference_does_not_block_witness :
  outcome (validateTruncate (inDatabase "hr") (analyzerOf [hr]) ""
             (ResolvedTable employees)) = (true, None)
  /\ outcome (processTruncate (inDatabase "hr") (analyzerOf [hr])
                (Truncate "" (ResolvedTable employees)))
     = Ok (Truncate "" (ResolvedTable employees))
  /\ outcome (processTruncate (inDatabase "hr") (analyzerOf [hr])
                (DeleteFrom (ResolvedTable employees)))
     = Ok (Truncate "hr" (ResolvedTable employees)).
Proof.
  destruct (self_reference_does_not_block (inDatabase "hr") (analyzerOf [hr])
              "" (ResolvedTable employees) employees eq_refl)
    as (_ & H & _).
  split; [|split; [|reflexivity]]; apply H;
    (constructor; [|constructor]; intros _;
     exists ["employees"; "badges"]; split; [reflexivity|];
     constructor; [intros Hn; now elim Hn|];
     constructor; [|constructor]; intros _;
     exists (plainTable "badges" false []); split; [reflexivity|];
     constructor).
Defined.

(** C9 as stated fails.  In [hrWithGhost] the only foreign key that
    references [employees] is held by [employees] itself, yet validation
    does not answer (true, no error): the database lists a name it cannot
    fetch.  The explicit TRUNCATE and the DELETE both fail. *)
Lemma self_reference_counterexample :
  (forall n u, GetTableInsensitive hrWithGhost n = Ok (Some u) -> u = employees)
  /\ outcome (validateTruncate (inDatabase "hr") (analyzerOf [hrWithGhost]) ""
                (ResolvedTable employees))
     = (true, Some (ErrTableNotFound "ghost"))
  /\ outcome (processTruncate (inDatabase "hr") (analyzerOf [hrWithGhost])
                (Truncate "" (ResolvedTable employees)))
     = Err (ErrTableNotFound "ghost")
  /\ outcome (processTruncate (inDatabase "hr") (analyzerOf [hrWithGhost])
                (DeleteFrom (ResolvedTable employees)))
     = Err (ErrTableNotFound "ghost").
Proof.
  repeat split.
  intros n u. simpl. destruct (asciiToLower n =? "employees"); congruence.
Qed.

(** The scenario of the specification. *)
Lemma referenced_table_blocks_truncate_not_delete_witness :
  outcome (processTruncate (inDatabase "sales") (analyzerOf [sales])
             (Truncate "" (ResolvedTable orders)))
    = Err (ErrTruncateReferencedFromForeignKey "orders" "fk1" "order_items")
  /\ outcome (deleteToTruncate (inDatabase "sales") (analyzerOf [sales])
                (ResolvedTable orders))
    = Ok (DeleteFrom (ResolvedTable orders)).
Proof.
  destruct (referenced_table_blocks_truncate_not_delete
              (inDatabase "sales") (analyzerOf [sales]) "" "sales" orders sales
              [] [] ["orders"] [] "order_items" order_items [] []
              {| fk_Name := "fk1"; ReferencedTable := "orders" |})
    as [H1 H2].
  - reflexivity.
  - reflexivity.
  - reflexivity.
  - constructor.
  - reflexivity.
  - constructor; [|constructor]. intros Hn. now elim Hn.
  - vm_compute. discriminate.
  - reflexivity.
  - reflexivity.
  - constructor.
  - reflexivity.
  - split.
    + apply H1. reflexivity.
    + apply H2.
      * repeat constructor. eexists; reflexivity.
      * repeat constructor. eexists; reflexivity.
      * exists ["orders"; "order_items"], "orders". simpl. auto.
      * reflexivity.
Defined.

(** C2 as stated fails.  [order_items], in the same database as [orders],
    holds [fk1] referencing [orders], and the explicit TRUNCATE fails as
    claimed; but the DELETE is not handed back: the listing of a database
    scanned earlier fails and its error is returned. *)
Lemma referenced_table_counterexample :
  GetTableInsensitive sales "order_items" = Ok (Some order_items)
  /\ GetForeignKeys order_items
     = Some (Ok [{| fk_Name := "fk1"; ReferencedTable := "orders" |}])
  /\ outcome (processTruncate (inDatabase "sales")
                (analyzerOf [brokenDatabase "offline"; sales])
                (Truncate "" (ResolvedTable orders)))
     = Err (ErrTruncateReferencedFromForeignKey "orders" "fk1" "order_items")
  /\ outcome (deleteToTruncate (inDatabase "sales")
                (analyzerOf [brokenDatabase "offline"; sales])
                (ResolvedTable orders))
     = Err (ErrMetadata "io").
Proof. repeat split. Qed.

Lemma delete_rewritten_to_truncate_witness :
  outcome (processTruncate (inDatabase "sales")
             (analyzerOf [shop [onOrders "insert"]; hr])
             (DeleteFrom (ResolvedTable orders)))
    = Ok (Truncate "shop" (ResolvedTable orders)).
Proof.
  apply (delete_rewritten_to_truncate (inDatabase "sales")
           (analyzerOf [shop [onOrders "insert"]; hr]) orders
           [] [hr] (shop [onOrders "insert"])).
  - intros (col & [<-|[]] & Hc). discriminate.
  - reflexivity.
  - reflexivity.
  - constructor; [|constructor].
    exists ["employees"; "badges"]. split; [reflexivity|].
    repeat constructor; vm_compute; discriminate.
  - exists [], "orders", ["order_items"]. repeat split.
    repeat constructor. vm_compute. discriminate.
  - constructor; [|constructor; [|constructor]].
    + eexists. split; [reflexivity|].
      constructor; [|constructor]. intros E. discriminate.
    + eexists. split; [reflexivity|]. constructor.
  - constructor; [|constructor; [|constructor]].
    + intros _. exists ["orders"; "order_items"]. split; [reflexivity|].
      constructor; [intros Hn; now elim Hn|].
      constructor; [|constructor]. intros _.
      exists (plainTable "order_items" false []). split; [reflexivity|].
      constructor.
    + intros E. vm_compute in E. discriminate.
Defined.

(** C1 as stated fails.  In both catalogs [orders] has no auto-increment
    column, its name is listed in one database only, no delete trigger is
    on it and no foreign key references it; yet the DELETE is handed back
    as it is: in the first a delete trigger, on another table, has a
    target that is not an unresolved-table reference (lines 78-82); in the
    second the table does not support truncation (lines 108-111, 92-99). *)
Lemma delete_rewritten_counterexample :
  (~ hasAutoIncrement orders
   /\ listsOnce orders (shop [onResolvedItems])
   /\ (forall tr, definesTrigger (shop [onResolvedItems]) tr ->
         ~ triggerTargets orders "shop" (shop [onResolvedItems]) tr)
   /\ scanIsClean "shop" "orders" [shop [onResolvedItems]]
   /\ outcome (processTruncate (inDatabase "shop")
                 (analyzerOf [shop [onResolvedItems]])
                 (DeleteFrom (ResolvedTable orders)))
      = Ok (DeleteFrom (ResolvedTable orders)))
  /\ (~ hasAutoIncrement ordersView
      /\ listsOnce ordersView (memDatabase "shop" [ordersView] [])
      /\ (forall tr, ~ definesTrigger (memDatabase "shop" [ordersView] []) tr)
      /\ scanIsClean "shop" "orders" [memDatabase "shop" [ordersView] []]
      /\ outcome (processTruncate (inDatabase "shop")
                    (analyzerOf [memDatabase "shop" [ordersView] []])
                    (DeleteFrom (ResolvedTable ordersView)))
         = Ok (DeleteFrom (ResolvedTable ordersView))).
Proof.
  split; repeat split.
  - intros (col & [<-|[]] & Hc). discriminate.
  - exists [], "orders", ["order_items"]. repeat split.
    repeat constructor. vm_compute. discriminate.
  - intros tr (ts & Hts & Hin) (name & database & Htgt & _).
    inversion Hts; subst ts. destruct Hin as [<-|[]]. discriminate.
  - constructor; [|constructor]. intros _.
    exists ["orders"; "order_items"]. split; [reflexivity|].
    constructor; [intros Hn; now elim Hn|].
    constructor; [|constructor]. intros _.
    exists (plainTable "order_items" false []). split; [reflexivity|].
    constructor.
  - intros (col & [<-|[]] & Hc). discriminate.
  - exists [], "orders", []. repeat split. constructor.
  - intros tr (ts & Hts & Hin). inversion Hts; subst ts. destruct Hin.
  - constructor; [|constructor]. intros _.
    exists ["orders"]. split; [reflexivity|].
    constructor; [intros Hn; now elim Hn|constructor].
Qed.

Lemma Walk_stays_inside_tree_witness :
  In leafB (preorder rootExpr).
Proof.
  apply (Walk_stays_inside_tree nat (inspector nat) inspector_Visit rootExpr
           countingInspector 0 leafB).
  vm_compute. auto.
Defined.

Lemma Inspect_visits_every_node_witness :
  visited (snd (Inspect rootExpr (fun _ n => (S n, true)) 0)) = preorder rootExpr
  /\ sentinels (snd (Inspect rootExpr (fun _ n => (S n, true)) 0))
     = length (preorder rootExpr).
Proof.
  apply (Inspect_visits_every_node (fun _ n => (S n, true))).
  reflexivity.
Defined.

Lemma validateTruncate_passes_iff_scan_clean_witness :
  outcome (validateTruncate (inDatabase "sales") (analyzerOf [sales]) ""
             (ResolvedTable orders)) = (true, None)
  <-> scanIsClean (normalizedDbName (inDatabase "sales") "")
                  (ToLower (Table_Name orders))
                  (AllDatabases (Analyzer_Catalog (analyzerOf [sales]))).
Proof.
  apply (validateTruncate_passes_iff_scan_clean (inDatabase "sales")
           (analyzerOf [sales]) "" (ResolvedTable orders) orders).
  reflexivity.
Defined.

Lemma validateTruncate_false_is_truthful_witness :
  (exists e, GetTruncatable (ResolvedTable orders) = Err e
             /\ Some (ErrTruncateReferencedFromForeignKey
                        "orders" "fk1" "order_items") = Some e)
  \/ (exists tr d n fk,
        GetTruncatable (ResolvedTable orders) = Ok tr /\
        In d (AllDatabases (Analyzer_Catalog (analyzerOf [sales]))) /\
        ToLower (Database_Name d) = normalizedDbName (inDatabase "sales") "" /\
        referencedBy (ToLower (Table_Name tr)) d n fk /\
        Some (ErrTruncateReferencedFromForeignKey "orders" "fk1" "order_items")
          = Some (ErrTruncateReferencedFromForeignKey
                    (ToLower (Table_Name tr)) (fk_Name fk) n)).
Proof.
  apply (validateTruncate_false_is_truthful (inDatabase "sales")
           (analyzerOf [sales]) "" (ResolvedTable orders)).
  reflexivity.
Defined.

Lemma rewrite_only_of_plain_truncatable_table_witness :
  exists t,
    ResolvedTable orders = ResolvedTable t /\
    ResolvedTable orders = ResolvedTable t /\
    ~ hasAutoIncrement t /\ Truncateable t = true.
Proof.
  apply (rewrite_only_of_plain_truncatable_table (inDatabase "shop")
           (analyzerOf [shop [onOrders "insert"]])
           (ResolvedTable orders) (ResolvedTable orders) "shop").
  reflexivity.
Defined.

Lemma rewrite_only_when_listed_once_witness :
  exists before d after,
    AllDatabases (Analyzer_Catalog (analyzerOf [hr; shop [onOrders "insert"]]))
      = before ++ d :: after /\
    Forall (listsNoSuchTable orders) (before ++ after) /\
    listsOnce orders d /\ "shop" = Database_Name d.
Proof.
  apply (rewrite_only_when_listed_once (inDatabase "hr")
           (analyzerOf [hr; shop [onOrders "insert"]])
           orders (ResolvedTable orders) "shop").
  reflexivity.
Defined.

Lemma rewrite_only_without_delete_trigger_witness :
  Forall (noDeleteTriggerOn orders "shop")
         (AllDatabases (Analyzer_Catalog
                          (analyzerOf [hr; shop [onOrders "insert"]]))).
Proof.
  apply (rewrite_only_without_delete_trigger (inDatabase "hr")
           (analyzerOf [hr; shop [onOrders "insert"]])
           orders (ResolvedTable orders) "shop").
  reflexivity.
Defined.

Lemma rewrite_only_when_unreferenced_witness :
  scanIsClean (normalizedDbName (inDatabase "hr") (ToLower "shop"))
              (ToLower (Table_Name orders))
              (AllDatabases (Analyzer_Catalog
                               (analyzerOf [hr; shop [onOrders "insert"]]))).
Proof.
  apply (rewrite_only_when_unreferenced (inDatabase "hr")
           (analyzerOf [hr; shop [onOrders "insert"]])
           orders (ResolvedTable orders) "shop").
  reflexivity.
Defined.

Lemma processTruncate_changes_only_delete_witness :
  Truncate "shop" (ResolvedTable orders) = DeleteFrom (ResolvedTable orders)
  \/ exists t db,
       DeleteFrom (ResolvedTable orders) = DeleteFrom (ResolvedTable t) /\
       Truncate "shop" (ResolvedTable orders) = Truncate db (ResolvedTable t).
Proof.
  apply (processTruncate_changes_only_delete (inDatabase "shop")
           (analyzerOf [shop []])).
  reflexivity.
Defined.

Lemma delete_fails_only_on_lookups_witness :
  lookupFailsWith
    (AllDatabases (Analyzer_Catalog (analyzerOf [hrWithGhost])))
    (ErrTableNotFound "ghost")
  \/ exists d n,
       In d (AllDatabases (Analyzer_Catalog (analyzerOf [hrWithGhost]))) /\
       listsUnfetchable d n /\ ErrTableNotFound "ghost" = ErrTableNotFound n.
Proof.
  apply (delete_fails_only_on_lookups (inDatabase "hr")
           (analyzerOf [hrWithGhost]) (ResolvedTable employees)).
  reflexivity.
Defined.

Lemma validateTruncate_asks_only_target_databases_witness :
  ToLower "sales" = normalizedDbName (inDatabase "other") "SALES".
Proof.
  apply (validateTruncate_asks_only_target_databases (inDatabase "other")
           (analyzerOf [archive; sales]) "SALES" (ResolvedTable orders)
           {| ev_lookup := CallGetForeignKeys "sales" "order_items";
              ev_err := None |} "sales").
  - vm_compute. auto.
  - reflexivity.
Defined.

Lemma InspectNode_visits_every_node_witness :
  visitedNodes (snd (InspectNode samplePlan (fun _ n => (S n, true)) 0))
    = Node_preorder samplePlan
  /\ nodeSentinels (snd (InspectNode samplePlan (fun _ n => (S n, true)) 0))
     = length (Node_preorder samplePlan).
Proof.
  apply (InspectNode_visits_every_node (fun _ n => (S n, true))).
  reflexivity.
Defined.

Lemma Inspect_visits_the_pruned_tree_witness :
  visited (snd (Inspect rootExpr countingInspector 0))
    = prunedPreorder
        (fun e => match e with
                  | Expr label _ =>
                      negb ((label =? "leaf") || (label =? "skip"))%bool
                  end) rootExpr
  /\ sentinels (snd (Inspect rootExpr countingInspector 0))
     = length (filter
                 (fun e => match e with
                           | Expr label _ =>
                               negb ((label =? "leaf") || (label =? "skip"))%bool
                           end)
                 (prunedPreorder
                    (fun e => match e with
                              | Expr label _ =>
                                  negb ((label =? "leaf") || (label =? "skip"))%bool
                              end) rootExpr)).
Proof.
  apply (Inspect_visits_the_pruned_tree countingInspector).
  intros [label children] s. reflexivity.
Defined.


